(** * markov-chain: the character-level Markov text generator of generate.py

    A shallow embedding of [src/generate.py] and the properties of it that
    the specification states.

    - Python [str] values are lists of Unicode code points ([pystr]); the
      characters a text file yields are the code points of [file.read()].
    - Python's [dict] keeps insertion order, which the program relies on (the
      first key is the start state and the successor order fixes the sampling):
      dictionaries are association lists updated in place.
    - Python's [float] is IEEE binary64: a float is the rational it denotes and
      every operation rounds the exact result to 53 significant bits.
    - Exceptions are explicit: a computation returns [Ok v] or [Raise e].
    - The generator [next_character] is the finite list of the values it
      yields, in order.
    - What the interpreter and its libraries bring ([str.lower], the
      generator behind [random.random]) is a parameter, a type class with an
      instance to compute with.

    The file has four parts: the program, function by function; the
    vocabulary of the properties; the properties the specification states,
    with their proofs; further properties of the program. *)

From Stdlib Require Import String Ascii.
From Stdlib Require Import ZArith NArith QArith Qabs List Bool Lia Lqa.
Import ListNotations.

Set Warnings "-register-all".

Set Implicit Arguments.
Open Scope Z_scope.

(** * The program *)

(** ** Python values *)

(** A character is its Unicode code point. *)
Definition char := N.

(** A Python [str]. One-character strings are one-element lists. *)
Definition pystr := list char.

(** The code points of an ASCII literal, to write texts down. *)
Definition str (s : string) : pystr := map N_of_ascii (list_ascii_of_string s).

Definition NL : char := 10%N.
Definition SPACE : char := 32%N.

Fixpoint str_eqb (s t : pystr) : bool :=
  match s, t with
  | [], [] => true
  | a :: s', b :: t' => N.eqb a b && str_eqb s' t'
  | _, _ => false
  end.

(** The exceptions the program can end with. The first six are raised by
    the interpreter and the library on the program's own statements. The last
    four are the names the specification gives to its error classes: no
    statement of generate.py raises them. *)
Inductive exn : Set :=
| TypeError
| StopIteration
| KeyError
| ValueError
| IndexError
| ZeroDivisionError
| InvalidParameterError
| InsufficientDataError
| UnknownContextError
| MalformedModelError.

Inductive result (A : Type) : Type :=
| Ok (a : A)
| Raise (e : exn).
Arguments Ok {A} a.
Arguments Raise {A} e.

Definition bind {A B : Type} (r : result A) (k : A -> result B) : result B :=
  match r with
  | Ok a => k a
  | Raise e => Raise e
  end.

Notation "x <- r ;; k" := (bind r (fun x => k))
  (at level 61, r at next level, right associativity).
Notation "' p <- r ;; k" := (bind r (fun x => match x with p => k end))
  (at level 61, p pattern, r at next level, right associativity).

Fixpoint mapM {A B : Type} (f : A -> result B) (l : list A) : result (list B) :=
  match l with
  | [] => Ok []
  | a :: l' => b <- f a ;; bs <- mapM f l' ;; Ok (b :: bs)
  end.

Definition is_ok {A : Type} (r : result A) : bool :=
  match r with Ok _ => true | Raise _ => false end.

(** ** Insertion-ordered dictionaries *)

Module Dict.
Section Dict.
Variables K V : Type.
Variable eqb : K -> K -> bool.

Definition t := list (K * V).

Definition keys (d : t) : list K := map fst d.
Definition values (d : t) : list V := map snd d.

(** [d.get(k)]. *)
Fixpoint get (d : t) (k : K) : option V :=
  match d with
  | [] => None
  | (k', v) :: d' => if eqb k k' then Some v else get d' k
  end.

(** [d[k]] on a plain dict: a missing key is a [KeyError]. *)
Definition item (d : t) (k : K) : result V :=
  match get d k with
  | Some v => Ok v
  | None => Raise KeyError
  end.

(** [d[k] = f(d[k])] on a [defaultdict] whose factory returns [dflt]: a present
    key keeps its place, a missing one is appended holding [f dflt]. *)
Fixpoint upsert (k : K) (f : V -> V) (dflt : V) (d : t) : t :=
  match d with
  | [] => [(k, f dflt)]
  | (k', v) :: d' =>
      if eqb k k' then (k', f v) :: d' else (k', v) :: upsert k f dflt d'
  end.

(** [d[k] = v] on a plain dict. *)
Definition set (k : K) (v : V) (d : t) : t := upsert k (fun _ => v) v d.

(** [next(iter(d))]: the first key, [StopIteration] on an empty dict. *)
Definition first_key (d : t) : result K :=
  match d with
  | [] => Raise StopIteration
  | (k, _) :: _ => Ok k
  end.

End Dict.
End Dict.

(** ** Floating point *)

(** A Python [float] is an IEEE binary64 number. The model keeps the rational
    a float denotes and rounds the exact result of each operation to the
    nearest number with a 53-bit significand, ties to even, as the hardware
    does. The exponent is left unbounded: a quotient [count / total] leaves
    the normal range of binary64 only when [total] reaches [2^1022], and the
    sampling weights lie between such a quotient and the sum of a few of
    them. *)
Module Float.

Definition float := Q.

(** [n / d] rounded to the nearest integer, ties to even ([0 <= n], [0 < d]). *)
Definition round_half_even (n d : Z) : Z :=
  let f := n / d in
  match 2 * (n mod d) ?= d with
  | Lt => f
  | Gt => f + 1
  | Eq => if Z.even f then f else f + 1
  end.

Definition pow2 (e : Z) : Q :=
  if 0 <=? e then inject_Z (2 ^ e) else / inject_Z (2 ^ (- e)).

(** Numerator and denominator of [(a / b) / 2^e]. *)
Definition scaled (a b e : Z) : Z * Z :=
  if 0 <=? e then (a, b * 2 ^ e) else (a * 2 ^ (- e), b).

(** The exponent [e] of the unit in the last place of [a / b]:
    [2^52 <= (a / b) / 2^e < 2^53]. *)
Definition exponent (a b : Z) : Z :=
  let k := Z.log2 a - Z.log2 b - 52 in
  let '(n, d) := scaled a b k in
  if n <? 2 ^ 52 * d then k - 1 else k.

(** The binary64 number nearest to [a / b], for [0 < a] and [0 < b]. *)
Definition round_pos (a b : Z) : Q :=
  let e := exponent a b in
  let '(n, d) := scaled a b e in
  Qred (inject_Z (round_half_even n d) * pow2 e).

(** Round to nearest, ties to even. *)
Definition RN (q : Q) : float :=
  match Qnum q with
  | 0 => 0%Q
  | Z.pos a => round_pos (Z.pos a) (Z.pos (Qden q))
  | Z.neg a => (- round_pos (Z.pos a) (Z.pos (Qden q)))%Q
  end.

(** Half a unit in the last place, relative to the rounded quantity: [2^-53]. *)
Definition ulp_half : Q := Eval cbv in (1 # 2 ^ 53).

(** [a / b] on Python integers: the correctly rounded quotient. *)
Definition truediv (a b : Z) : result float :=
  if b =? 0 then Raise ZeroDivisionError
  else Ok (RN (inject_Z a / inject_Z b)).

Definition add (x y : float) : float := RN (x + y).
Definition mul (x y : float) : float := RN (x * y).

(** [x < y] and [x <= y]. *)
Definition ltb (x y : float) : bool := negb (Qle_bool y x).
Definition leb (x y : float) : bool := Qle_bool x y.
Definition eqb (x y : float) : bool := Qeq_bool x y.

End Float.

Abbreviation float := Float.float.

(** ** The character filter: [next_character] *)

(** [string.printable] of CPython: digits, letters, punctuation, whitespace. *)
Definition digits : pystr := str "0123456789".
Definition ascii_lowercase : pystr := str "abcdefghijklmnopqrstuvwxyz".
Definition ascii_uppercase : pystr := str "ABCDEFGHIJKLMNOPQRSTUVWXYZ".
Definition punctuation : pystr :=
  map N.of_nat (seq 33 15 ++ seq 58 7 ++ seq 91 6 ++ seq 123 4).
Definition whitespace : pystr := [32; 9; 10; 13; 11; 12]%N.
Definition printable : pystr :=
  digits ++ ascii_lowercase ++ ascii_uppercase ++ punctuation ++ whitespace.

(** [s.index(c)] for a character that occurs in [s]. *)
Fixpoint index (c : char) (s : pystr) : nat :=
  match s with
  | [] => O
  | a :: s' => if N.eqb a c then O else S (index c s')
  end.

(** [string.printable[string.printable.index(" ") + 1 :]]. *)
Definition non_printable : pystr := skipn (index SPACE printable + 1) printable.

(** [char in s] for a one-character [char]. *)
Definition char_in (c : char) (s : pystr) : bool := existsb (N.eqb c) s.

(** [str.lower] on one character follows the Unicode character database of the
    interpreter, which is no part of the program: it is a parameter. Its
    result is a string because one code point (U+0130) lowers to two. No
    character other than the newline lowers to the newline. *)
Class Lowering : Type := {
  lower : char -> pystr;
  lower_newline : forall c : char, c <> NL -> lower c <> [NL]
}.

(** [str.lower] restricted to ASCII: it agrees with Python on every code
    point below 128 and on every caseless one. *)
Definition ascii_lower (c : char) : pystr :=
  if (N.leb 65 c && N.leb c 90)%bool then [(c + 32)%N] else [c].

(** The two locals the generator keeps between characters. [None] is
    Python's [None]. *)
Record filter_state : Type := {
  first_char : option pystr;
  last_char : option pystr
}.

Definition init_state : filter_state :=
  {| first_char := None; last_char := None |}.

Definition opt_str_eqb (o : option pystr) (s : pystr) : bool :=
  match o with
  | Some t => str_eqb t s
  | None => false
  end.

Definition or_else (o : option pystr) (s : pystr) : option pystr :=
  match o with
  | Some t => Some t
  | None => Some s
  end.

Section Filter.
Context {L : Lowering}.

(** One turn of the [for char in file.read()] loop: the new locals and the
    values yielded during the turn (none or one). *)
Definition filter_step (ignore_case : bool) (st : filter_state) (c : char)
  : filter_state * list pystr :=
  if negb (char_in c non_printable) then
    let c' := if negb ignore_case then lower c else [c] in
    ({| first_char := or_else (first_char st) c'; last_char := Some c' |}, [c'])
  else if (N.eqb c NL && negb (opt_str_eqb (last_char st) [c]))%bool then
    ({| first_char := or_else (first_char st) [c]; last_char := Some [NL] |},
     [[SPACE]])
  else (st, []).

(** The whole loop from given locals: the final locals and the yields. *)
Fixpoint filter_loop (ignore_case : bool) (st : filter_state) (text : pystr)
  : filter_state * list pystr :=
  match text with
  | [] => (st, [])
  | c :: text' =>
      let '(st1, ys) := filter_step ignore_case st c in
      let '(st2, zs) := filter_loop ignore_case st1 text' in
      (st2, ys ++ zs)
  end.

(** The yields of the loop over the whole file, the closing one apart. *)
Definition filtered (text : pystr) (ignore_case : bool) : list pystr :=
  snd (filter_loop ignore_case init_state text).

(** The value of the closing [yield first_char]. *)
Definition sentinel (text : pystr) (ignore_case : bool) : option pystr :=
  first_char (fst (filter_loop ignore_case init_state text)).

(** [next_character(filename, ignore_case)], as the list of everything the
    generator yields when [text] is what [file.read()] returns. *)
Definition next_character (text : pystr) (ignore_case : bool)
  : list (option pystr) :=
  map Some (filtered text ignore_case) ++ [sentinel text ignore_case].

End Filter.

(** ** The automaton *)

(** The raw count table: for each context, how often each character
    followed it. *)
Definition counts := Dict.t pystr (Dict.t pystr Z).

(** A two-element Python sequence is a [tuple] or a [list]: they unpack alike
    and never compare equal. *)
Inductive container : Set := Tuple | List.

(** One value of the automaton: [(successors, probabilities)]. *)
Record entry : Type := {
  shape : container;
  successors : list pystr;
  weights : list float
}.

Definition Automaton := Dict.t pystr entry.

(** [automaton[curr][char] += 1] on the [defaultdict] of [defaultdict(int)]. *)
Definition bump (automaton : counts) (curr c : pystr) : counts :=
  Dict.upsert str_eqb curr (Dict.upsert str_eqb c Z.succ 0) [] automaton.

(** [for _ in range(order): curr += next(gen)], on the rest of the generator.
    [next] on an exhausted generator raises [StopIteration], and adding
    [None] to a [str] raises [TypeError]. *)
Fixpoint prime (n : nat) (curr : pystr) (gen : list (option pystr))
  : result (pystr * list (option pystr)) :=
  match n with
  | O => Ok (curr, gen)
  | S n' =>
      match gen with
      | [] => Raise StopIteration
      | None :: _ => Raise TypeError
      | Some c :: gen' => prime n' (curr ++ c) gen'
      end
  end.

(** [for char in gen: automaton[curr][char] += 1; curr = curr[1:] + char].
    A yielded [None] is counted and then fails the concatenation; the table
    is local and lost with the exception. *)
Fixpoint count_loop (automaton : counts) (curr : pystr)
  (gen : list (option pystr)) : result counts :=
  match gen with
  | [] => Ok automaton
  | None :: _ => Raise TypeError
  | Some c :: gen' => count_loop (bump automaton curr c) (tl curr ++ c) gen'
  end.

Definition sumZ (l : list Z) : Z := fold_left Z.add l 0.

(** The value [normalize_automaton] stores for one state. *)
Definition normalize_entry (transitions : Dict.t pystr Z) : result entry :=
  let total_occ := sumZ (Dict.values transitions) in
  probs <- mapM (fun v => Float.truediv v total_occ) (Dict.values transitions) ;;
  Ok {| shape := Tuple;
        successors := Dict.keys transitions;
        weights := probs |}.

(** [for state, transitions in automaton.items(): res[state] = ...]. *)
Fixpoint normalize_loop (res : Automaton) (items : counts) : result Automaton :=
  match items with
  | [] => Ok res
  | (state, transitions) :: items' =>
      e <- normalize_entry transitions ;;
      normalize_loop (Dict.set str_eqb state e res) items'
  end.

Definition normalize_automaton (automaton : counts) : result Automaton :=
  normalize_loop [] automaton.

Section Builder.
Context {L : Lowering}.

(** [create_automaton(order, filename, ignore_case)], [text] being what
    [file.read()] returns. [range(order)] is empty for [order <= 0]. *)
Definition create_automaton (order : Z) (text : pystr) (ignore_case : bool)
  : result Automaton :=
  let gen := next_character text ignore_case in
  '(curr, gen') <- prime (Z.to_nat order) [] gen ;;
  automaton <- count_loop [] curr gen' ;;
  normalize_automaton automaton.

End Builder.

(** ** Persistence *)

(** A JSON document. [json.dumps] writes a float with [repr], the shortest
    decimal that reads back as the same binary64 number, and [json.loads]
    reads it back: the text in between is the json library's and is not
    modelled. *)
Inductive json : Type :=
| JNull
| JNumber (x : float)
| JString (s : pystr)
| JArray (items : list json)
| JObject (members : list (pystr * json)).

(** [json.dumps] of one value: a tuple and a list both become an array. *)
Definition entry_to_json (e : entry) : json :=
  JArray [JArray (map JString (successors e));
          JArray (map JNumber (weights e))].

(** The document [save_automaton] writes to [json/<stem>.json]. *)
Definition save_automaton (automaton : Automaton) : json :=
  JObject (map (fun kv => (fst kv, entry_to_json (snd kv))) automaton).

Definition as_string (j : json) : result pystr :=
  match j with
  | JString s => Ok s
  | _ => Raise TypeError
  end.

Definition as_number (j : json) : result float :=
  match j with
  | JNumber x => Ok x
  | _ => Raise TypeError
  end.

(** [json.loads] of one value: an array becomes a [list]. *)
Definition entry_of_json (j : json) : result entry :=
  match j with
  | JArray [JArray ss; JArray ws] =>
      succs <- mapM as_string ss ;;
      probs <- mapM as_number ws ;;
      Ok {| shape := List; successors := succs; weights := probs |}
  | _ => Raise TypeError
  end.

(** An object becomes a [dict], member by member (a repeated name keeps its
    first place and its last value). *)
Fixpoint load_members (res : Automaton) (members : list (pystr * json))
  : result Automaton :=
  match members with
  | [] => Ok res
  | (k, v) :: members' =>
      e <- entry_of_json v ;;
      load_members (Dict.set str_eqb k e res) members'
  end.

(** [import_automaton(filename)] on the document the file holds. The program
    returns whatever [json.loads] returns, unvalidated; a document that is
    not of the shape of an [Automaton] lies outside the type the function
    declares, and the model stops it here with a [TypeError]. *)
Definition import_automaton (doc : json) : result Automaton :=
  match doc with
  | JObject members => load_members [] members
  | _ => Raise TypeError
  end.

(** Python's [==] on automata: dictionaries compare as mappings, whatever
    their order; sequences compare by kind, then item by item; floats by
    value. *)
Fixpoint list_eqb {A : Type} (eqb : A -> A -> bool) (l1 l2 : list A) : bool :=
  match l1, l2 with
  | [], [] => true
  | a :: l1', b :: l2' => eqb a b && list_eqb eqb l1' l2'
  | _, _ => false
  end.

Definition container_eqb (c1 c2 : container) : bool :=
  match c1, c2 with
  | Tuple, Tuple | List, List => true
  | _, _ => false
  end.

Definition entry_eqb (e1 e2 : entry) : bool :=
  container_eqb (shape e1) (shape e2)
  && list_eqb str_eqb (successors e1) (successors e2)
  && list_eqb Float.eqb (weights e1) (weights e2).

Definition py_eq (a1 a2 : Automaton) : bool :=
  Nat.eqb (length a1) (length a2)
  && forallb (fun kv =>
       match Dict.get str_eqb a2 (fst kv) with
       | Some e => entry_eqb (snd kv) e
       | None => false
       end) a1.

(** ** Sampling: [random.choices] *)

(** The pseudo-random generator of the [random] module (the Mersenne
    Twister) is library code: its state, its seeding and [random.random()],
    which returns a float in [0, 1) and the next state, are parameters. *)
Class Random : Type := {
  rng : Type;
  seed_rng : Z -> rng;
  random : rng -> float * rng
}.

(** [itertools.accumulate(weights)]. *)
Fixpoint accumulate_from (total : float) (ws : list float) : list float :=
  match ws with
  | [] => []
  | w :: ws' => let t := Float.add total w in t :: accumulate_from t ws'
  end.

Definition accumulate (ws : list float) : list float :=
  match ws with
  | [] => []
  | w :: ws' => w :: accumulate_from w ws'
  end.

(** [bisect.bisect_right(a, x, lo, hi)]: the loop
    [while lo < hi: mid = (lo + hi) // 2; if x < a[mid]: hi = mid else: lo = mid + 1],
    which runs at most [hi - lo] times. *)
Fixpoint bisect_loop (fuel : nat) (a : list float) (x : float) (lo hi : nat)
  : nat :=
  match fuel with
  | O => lo
  | S fuel' =>
      if Nat.ltb lo hi then
        let mid := Nat.div (lo + hi) 2 in
        if Float.ltb x (nth mid a 0%Q) then bisect_loop fuel' a x lo mid
        else bisect_loop fuel' a x (mid + 1) hi
      else lo
  end.

Definition bisect (a : list float) (x : float) (lo hi : nat) : nat :=
  bisect_loop (hi - lo) a x lo hi.

Section Sampling.
Context {R : Random}.

(** [random.choices(population, weights)[0]] of CPython, with the state of
    the generator made explicit. The weights are floats, so
    [total = cum_weights[-1] + 0.0] is the last cumulative weight and is
    finite. *)
Definition choices (population : list pystr) (ws : list float) (g : rng)
  : result (pystr * rng) :=
  let n := length population in
  let cum_weights := accumulate ws in
  if negb (Nat.eqb (length cum_weights) n) then Raise ValueError
  else
    match rev cum_weights with
    | [] => Raise IndexError
    | total :: _ =>
        if Float.leb total 0%Q then Raise ValueError
        else
          let '(r, g') := random g in
          let i := bisect cum_weights (Float.mul r total) 0 (n - 1) in
          match nth_error population i with
          | Some c => Ok (c, g')
          | None => Raise IndexError
          end
    end.

(** [random.seed(seed)]: an integer seed fixes the state; [None] takes it
    from the operating system's entropy, here the integer [entropy]. *)
Definition random_seed (seed : option Z) (entropy : Z) : rng :=
  match seed with
  | Some s => seed_rng s
  | None => seed_rng entropy
  end.

(** ** The generator: [generate] *)

(** The [while index < length] loop, [n] turns from [state]: the characters
    stored in [res], in order. *)
Fixpoint walk (automaton : Automaton) (n : nat) (state : pystr) (g : rng)
  : result (list pystr) :=
  match n with
  | O => Ok []
  | S n' =>
      e <- Dict.item str_eqb automaton state ;;
      '(c, g') <- choices (successors e) (weights e) g ;;
      res <- walk automaton n' (tl state ++ c) g' ;;
      Ok (c :: res)
  end.

(** The statements of [generate] after the automaton is there. The loop
    runs [length] times, not at all for [length <= 0]. *)
Definition generate_from (automaton : Automaton) (length : Z) (g : rng)
  : result pystr :=
  state <- Dict.first_key automaton ;;
  res <- walk automaton (Z.to_nat length) state g ;;
  Ok (concat res).

End Sampling.

(** The source file, as the program reads it: [file.read()] when it trains
    on the file, [json.loads(file.read())] when it imports it ([ValueError]
    when the text is no JSON document). *)
Record source_file : Type := {
  file_text : pystr;
  file_json : result json
}.

(** What a call leaves behind: the document written when [export] is set, and
    the string returned or the exception raised. *)
Record outcome : Type := {
  written : option json;
  returned : result pystr
}.

Section Generate.
Context {L : Lowering} {R : Random}.

(** [generate(length, order, filename, seed, export, raw, ignore_case)]. *)
Definition generate (length order : Z) (file : source_file) (seed : option Z)
  (export raw ignore_case : bool) (entropy : Z) : outcome :=
  let g := random_seed seed entropy in
  if raw then
    match create_automaton order (file_text file) ignore_case with
    | Raise e => {| written := None; returned := Raise e |}
    | Ok automaton =>
        {| written := if export then Some (save_automaton automaton) else None;
           returned := generate_from automaton length g |}
    end
  else
    {| written := None;
       returned := doc <- file_json file ;;
                   automaton <- import_automaton doc ;;
                   generate_from automaton length g |}.

End Generate.

(** A linear congruential generator, to run the program on examples. *)
#[export] Instance Lcg : Random := {|
  rng := Z;
  seed_rng := fun s => s mod 2 ^ 53;
  random := fun g =>
    ((inject_Z g / inject_Z (2 ^ 53))%Q,
     (g * 6364136223846793005 + 1442695040888963407) mod 2 ^ 53)
|}.

(** A text file that is no JSON document. *)
Definition text_file (text : pystr) : source_file :=
  {| file_text := text; file_json := Raise ValueError |}.

(** The ASCII lowering keeps the law of the class. *)
#[export] Instance AsciiLowering : Lowering.
Proof.
  refine {| lower := ascii_lower |}.
  intros c Hc. unfold ascii_lower.
  destruct (N.leb 65 c && N.leb c 90)%bool eqn:E.
  - apply andb_true_iff in E as [E1 E2].
    apply N.leb_le in E1. apply N.leb_le in E2.
    unfold NL. intros H. injection H as H. lia.
  - intros H. injection H as H. contradiction.
Defined.

(** * The vocabulary of the properties *)

(** ** Distributions *)

Definition sumQ (l : list Q) : Q := fold_right Qplus 0%Q l.

(** What the builder keeps true of a row of the count table: it has an entry,
    and every count is positive. *)
Definition transitions_ok (transitions : Dict.t pystr Z) : Prop :=
  transitions <> [] /\ Forall (fun v => 0 < v) (Dict.values transitions).

Definition counts_ok (automaton : counts) : Prop :=
  Forall (fun kv => transitions_ok (snd kv)) automaton.

(** A probability distribution over the successors, as the specification
    asks of each value of the automaton. *)
Definition distribution (e : entry) : Prop :=
  List.length (successors e) = List.length (weights e)
  /\ Forall (fun p => (0 < p)%Q) (weights e)
  /\ (Qabs (sumQ (weights e) - 1) <= 1 # 1000000000)%Q.

(** A one-character string. *)
Definition single (s : pystr) : Prop := List.length s = 1%nat.

(** An automaton the walk cannot leave: every value is a distribution over
    one-character successors that are keys. *)
Definition closed (automaton : Automaton) : Prop :=
  forall (k : pystr) (e : entry), In (k, e) automaton ->
  single k
  /\ successors e <> []
  /\ List.length (successors e) = List.length (weights e)
  /\ Forall (fun w => (0 < w)%Q) (weights e)
  /\ forall c, In c (successors e) -> In c (Dict.keys automaton).

(** A character that follows some context in the count table. *)
Definition follows (automaton : counts) (c : pystr) : Prop :=
  exists (k : pystr) (tr : Dict.t pystr Z),
    In (k, tr) automaton /\ In c (Dict.keys tr).

(** ** The filter, told from the text *)

(** The four characters the filter drops wherever they stand: tab, carriage
    return, vertical tab and form feed. *)
Definition dropped (c : char) : bool := char_in c [9; 13; 11; 12]%N.

(** The nearest character before the current one that is not one of those
    four; [before] lists the characters read so far, the nearest first. *)
Definition last_kept (before : pystr) : option char :=
  find (fun c => negb (dropped c)) before.

Definition after_newline (before : pystr) : bool :=
  match last_kept before with
  | Some p => N.eqb p NL
  | None => false
  end.

(** The local [last_char] holds a newline exactly when the nearest character
    that was not dropped is one. *)
Definition tracks (st : filter_state) (before : pystr) : Prop :=
  opt_str_eqb (last_char st) [NL] = after_newline before.

(** The printable ASCII range, 32 to 126. *)
Definition printable_ascii (c : char) : bool := N.leb 32 c && N.leb c 126.

Section FilterDescription.
Context {L : Lowering}.

(** What the filter yields for the character [c] read after [before]. *)
Definition emitted (ignore_case : bool) (before : pystr) (c : char)
  : list pystr :=
  if dropped c then []
  else if N.eqb c NL then
    if after_newline before then [] else [[SPACE]]
  else [if negb ignore_case then lower c else [c]].

(** The yields of the filter, told from the text alone. *)
Fixpoint described (ignore_case : bool) (before text : pystr) : list pystr :=
  match text with
  | [] => []
  | c :: text' =>
      emitted ignore_case before c ++ described ignore_case (c :: before) text'
  end.

(** The filter as the specification words it: a character outside the
    printable ASCII range is dropped, a newline is dropped when the character
    just before it is a newline and becomes a space otherwise, and a
    printable character passes, lowercased unless the case is kept. *)
Fixpoint worded (ignore_case : bool) (previous : option char) (text : pystr)
  : list pystr :=
  match text with
  | [] => []
  | c :: text' =>
      (if N.eqb c NL then
         match previous with
         | Some p => if N.eqb p NL then [] else [[SPACE]]
         | None => [[SPACE]]
         end
       else if printable_ascii c then
         [if negb ignore_case then lower c else [c]]
       else [])
      ++ worded ignore_case (Some c) text'
  end.

End FilterDescription.

(** ** The walk, turn by turn *)

Section Advance.
Context {R : Random}.

(** The state and the generator after [j] turns of the loop of [generate]. *)
Fixpoint advance (automaton : Automaton) (j : nat) (state : pystr) (g : rng)
  : result (pystr * rng) :=
  match j with
  | O => Ok (state, g)
  | S j' =>
      e <- Dict.item str_eqb automaton state ;;
      '(c, g') <- choices (successors e) (weights e) g ;;
      advance automaton j' (tl state ++ c) g'
  end.

End Advance.

(** ** Reloading *)

(** The value a saved entry comes back as: the same successors and the same
    probabilities, in a list instead of a tuple. *)
Definition as_list (e : entry) : entry :=
  {| shape := List; successors := successors e; weights := weights e |}.

Definition reloaded (automaton : Automaton) : Automaton :=
  map (fun kv => (fst kv, as_list (snd kv))) automaton.

(** ** The filter in closed form *)

(** A character the filter does not drop wherever it stands. *)
Definition kept (c : char) : bool := negb (dropped c).

Section FilterClosedForm.
Context {L : Lowering}.

(** What the filter yields for a character that is no newline and is not
    dropped. *)
Definition passed (ignore_case : bool) (c : char) : pystr :=
  if negb ignore_case then lower c else [c].

(** A value the filter can yield for a character of [text]. *)
Definition yield_of (ignore_case : bool) (text : pystr) (y : pystr) : Prop :=
  (y = [SPACE] /\ In NL text)
  \/ exists c : char,
       In c text /\ char_in c non_printable = false
       /\ y = passed ignore_case c.

End FilterClosedForm.

(** ** What the builder observes *)

(** The (context, character) pairs the loop of the builder goes through,
    from the context [curr] on. *)
Fixpoint transitions (curr : pystr) (items : list pystr)
  : list (pystr * pystr) :=
  match items with
  | [] => []
  | c :: items' => (curr, c) :: transitions (tl curr ++ c) items'
  end.

(** The windows of [n] consecutive values of a list, each with the value
    that follows it. *)
Fixpoint windows (n : nat) (l : list pystr) : list (pystr * pystr) :=
  match l with
  | [] => []
  | _ :: l' =>
      match nth_error l n with
      | Some c => (concat (firstn n l), c) :: windows n l'
      | None => []
      end
  end.

(** How often the context [k] is met in a list of pairs, and how often [c]
    follows it. *)
Definition visits (k : pystr) (l : list (pystr * pystr)) : Z :=
  Z.of_nat (List.length (List.filter (fun p => str_eqb k (fst p)) l)).

Definition occurrences (k c : pystr) (l : list (pystr * pystr)) : Z :=
  Z.of_nat
    (List.length
       (List.filter (fun p => str_eqb k (fst p) && str_eqb c (snd p)) l)).

(** The count the table holds for [c] after [k], 0 when it holds none. *)
Definition count_of (table : counts) (k c : pystr) : Z :=
  match Dict.get str_eqb table k with
  | Some tr =>
      match Dict.get str_eqb tr c with
      | Some v => v
      | None => 0
      end
  | None => 0
  end.

(** The sum of the counts the table holds after [k]. *)
Definition row_total (table : counts) (k : pystr) : Z :=
  match Dict.get str_eqb table k with
  | Some tr => sumZ (Dict.values tr)
  | None => 0
  end.

Section Observed.
Context {L : Lowering}.

(** The values of the generator when none of them is [None]. *)
Definition yields (text : pystr) (ignore_case : bool) : list pystr :=
  filtered text ignore_case
  ++ match sentinel text ignore_case with
     | Some s => [s]
     | None => []
     end.

(** The pairs [create_automaton] counts: the first [order] values make the
    first context, the others are read one by one. *)
Definition observed (order : Z) (text : pystr) (ignore_case : bool)
  : list (pystr * pystr) :=
  let items := yields text ignore_case in
  transitions (concat (firstn (Z.to_nat order) items))
    (skipn (Z.to_nat order) items).

End Observed.

(** ** Normalisation, in closed form *)

(** The entry of a row whose counts do not sum to zero. *)
Definition normalized (transitions : Dict.t pystr Z) : entry :=
  {| shape := Tuple;
     successors := Dict.keys transitions;
     weights :=
       map (fun v => Float.RN (inject_Z v
                               / inject_Z (sumZ (Dict.values transitions))))
         (Dict.values transitions) |}.

(** The rows of a table that normalise without a division by zero. *)
Definition divisible (transitions : Dict.t pystr Z) : Prop :=
  transitions = [] \/ sumZ (Dict.values transitions) <> 0.

(** The rows on which the model of the division is the division of
    binary64: every count and their sum lie below [2^1022] in absolute value,
    so that a quotient is zero or a normal number. *)
Definition in_range (transitions : Dict.t pystr Z) : Prop :=
  Forall (fun v => Z.abs v < 2 ^ 1022) (Dict.values transitions)
  /\ Z.abs (sumZ (Dict.values transitions)) < 2 ^ 1022.

(** ** The examples *)

(** The row of ["a"] in the automaton of the text ["aab ac"], order 1: three
    successors, each with the float nearest to one third. *)
Definition third : float := Eval vm_compute in Float.RN (1 # 3).

Definition row_a : entry :=
  {| shape := Tuple;
     successors := [str "a"; str "b"; str "c"];
     weights := [third; third; third] |}.

(** The automaton of the text ["abc"] with order 2: the context ["ca"],
    reached after two turns, was never seen with a successor. *)
Definition automaton_abc : Automaton :=
  [(str "ab", {| shape := Tuple; successors := [str "c"]; weights := [1%Q] |});
   (str "bc", {| shape := Tuple; successors := [str "a"]; weights := [1%Q] |})].

Definition automaton_abc_loaded : Automaton :=
  [(str "ab", {| shape := List; successors := [str "c"]; weights := [1%Q] |});
   (str "bc", {| shape := List; successors := [str "a"]; weights := [1%Q] |})].

(** The automaton of a newline followed by ["ab"], order 1. *)
Definition automaton_nl_ab : Automaton :=
  [([SPACE], {| shape := Tuple; successors := [str "a"]; weights := [1%Q] |});
   (str "a", {| shape := Tuple; successors := [str "b"]; weights := [1%Q] |});
   (str "b", {| shape := Tuple; successors := [[NL]]; weights := [1%Q] |})].

(** The automaton of the text ["aab ac"], order 1. *)
Definition automaton_aab_ac : Automaton :=
  [(str "a", row_a);
   (str "b", {| shape := Tuple; successors := [str " "]; weights := [1%Q] |});
   (str " ", {| shape := Tuple; successors := [str "a"]; weights := [1%Q] |});
   (str "c", {| shape := Tuple; successors := [str "a"]; weights := [1%Q] |})].

(** A file that holds a JSON document. *)
Definition json_file (doc : json) : source_file :=
  {| file_text := []; file_json := Ok doc |}.

(** * Properties *)

(** ** Strings, results and sums *)

Lemma non_printable_eq : non_printable = [9; 10; 13; 11; 12]%N.
Proof. reflexivity. Qed.

Lemma str_eqb_eq (s t : pystr) : str_eqb s t = true <-> s = t.
Proof.
  revert t. induction s as [|a s IH]; intros [|b t]; simpl; try easy.
  rewrite andb_true_iff, N.eqb_eq, IH. split.
  - intros [-> ->]. reflexivity.
  - intros H. injection H as -> ->. split; reflexivity.
Qed.

Lemma str_eqb_refl (s : pystr) : str_eqb s s = true.
Proof. apply str_eqb_eq. reflexivity. Qed.

Lemma str_eqb_neq (s t : pystr) : str_eqb s t = false <-> s <> t.
Proof.
  rewrite <- str_eqb_eq. destruct (str_eqb s t); split; congruence.
Qed.

Lemma bind_ok {A B : Type} (r : result A) (k : A -> result B) (b : B) :
  bind r k = Ok b -> exists a, r = Ok a /\ k a = Ok b.
Proof. destruct r as [a|e]; simpl; [eauto | discriminate]. Qed.

Lemma sumZ_from (l : list Z) (a : Z) : fold_left Z.add l a = a + sumZ l.
Proof.
  unfold sumZ. revert a. induction l as [|v l IH]; intros a; simpl.
  - lia.
  - rewrite IH, (IH v). lia.
Qed.

Lemma sumZ_cons (v : Z) (l : list Z) : sumZ (v :: l) = v + sumZ l.
Proof. unfold sumZ at 1. simpl. apply sumZ_from. Qed.

Lemma sumZ_pos (l : list Z) :
  l <> [] -> Forall (fun v => 0 < v) l -> 0 < sumZ l.
Proof.
  intros Hne Hall. destruct l as [|v l]; [contradiction|].
  clear Hne. revert v Hall. induction l as [|w l IH]; intros v Hall.
  - inversion Hall; subst. rewrite sumZ_cons. unfold sumZ. simpl. lia.
  - inversion Hall; subst. rewrite sumZ_cons. specialize (IH w H2). lia.
Qed.

(** ** Rounding *)

Module FloatFacts.
Import Float.

Lemma round_half_even_near (n d : Z) :
  0 < d -> 2 * Z.abs (round_half_even n d * d - n) <= d.
Proof.
  intros Hd. unfold round_half_even.
  pose proof (Z.div_mod n d ltac:(lia)) as E.
  pose proof (Z.mod_pos_bound n d Hd) as B.
  destruct (Z.compare_spec (2 * (n mod d)) d) as [C|C|C];
    [destruct (Z.even (n / d))| |]; nia.
Qed.

Lemma round_half_even_lower (n d c : Z) :
  0 < d -> c * d <= n -> c <= round_half_even n d.
Proof.
  intros Hd Hc. unfold round_half_even.
  assert (c <= n / d) by (apply Z.div_le_lower_bound; lia).
  destruct (2 * (n mod d) ?= d); [destruct (Z.even (n / d))| |]; lia.
Qed.

Lemma inject_Z_pos (z : Z) : 0 < z -> (0 < inject_Z z)%Q.
Proof. intros H. change 0%Q with (inject_Z 0). rewrite <- Zlt_Qlt. exact H. Qed.

Lemma inject_Z_nonzero (z : Z) : 0 < z -> ~ (inject_Z z == 0)%Q.
Proof. intros H E. pose proof (inject_Z_pos H) as P. rewrite E in P. lra. Qed.

Lemma pow2_pos (e : Z) : (0 < pow2 e)%Q.
Proof.
  unfold pow2. destruct (Z.leb_spec 0 e).
  - apply inject_Z_pos. apply Z.pow_pos_nonneg; lia.
  - apply Qinv_lt_0_compat, inject_Z_pos. apply Z.pow_pos_nonneg; lia.
Qed.

(** [scaled a b e] is the fraction [(a / b) / 2^e]. *)
Lemma scaled_spec (a b e : Z) :
  0 < a -> 0 < b ->
  0 < fst (scaled a b e) /\ 0 < snd (scaled a b e) /\
  (inject_Z (fst (scaled a b e))
   == inject_Z a / inject_Z b * inject_Z (snd (scaled a b e)) / pow2 e)%Q.
Proof.
  intros Ha Hb. unfold scaled, pow2.
  pose proof (inject_Z_nonzero Hb) as Hb'.
  destruct (Z.leb_spec 0 e); cbn [fst snd].
  - assert (Hp : 0 < 2 ^ e) by (apply Z.pow_pos_nonneg; lia).
    pose proof (inject_Z_nonzero Hp).
    split; [lia|]. split; [nia|].
    rewrite inject_Z_mult. field. split; assumption.
  - assert (Hp : 0 < 2 ^ (- e)) by (apply Z.pow_pos_nonneg; lia).
    pose proof (inject_Z_nonzero Hp).
    split; [nia|]. split; [lia|].
    rewrite inject_Z_mult. field. split; assumption.
Qed.

(** The exponent is small enough for 53 significant bits. *)
Lemma exponent_spec (a b : Z) :
  0 < a -> 0 < b ->
  2 ^ 52 * snd (scaled a b (exponent a b)) <= fst (scaled a b (exponent a b)).
Proof.
  intros Ha Hb. unfold exponent.
  set (k := Z.log2 a - Z.log2 b - 52).
  destruct (scaled a b k) as [n d] eqn:E.
  destruct (Z.ltb_spec n (2 ^ 52 * d)) as [Hlt|Hge].
  - pose proof (Z.log2_spec a Ha) as [La _].
    pose proof (Z.log2_spec b Hb) as [_ Lb].
    pose proof (Z.log2_nonneg a). pose proof (Z.log2_nonneg b).
    unfold scaled. destruct (Z.leb_spec 0 (k - 1)); cbn [fst snd].
    + replace (Z.log2 a) with ((Z.log2 b + 1) + (k - 1) + 52) in La by lia.
      rewrite !Z.pow_add_r in La by lia.
      rewrite Z.pow_succ_r in Lb by lia.
      assert (0 < 2 ^ (k - 1)) by (apply Z.pow_pos_nonneg; lia).
      nia.
    + replace (- (k - 1)) with (53 + Z.log2 b - Z.log2 a) by lia.
      set (P := 2 ^ (53 + Z.log2 b - Z.log2 a)).
      assert (HP : 2 ^ Z.log2 a * P = 2 ^ 52 * 2 ^ Z.succ (Z.log2 b)).
      { unfold P. rewrite <- !Z.pow_add_r by lia. f_equal. lia. }
      assert (0 < P) by (apply Z.pow_pos_nonneg; lia).
      nia.
  - rewrite E. cbn [fst snd]. lia.
Qed.

(** Rounding a positive quotient gives a positive float within half a unit
    in the last place of it. *)
Lemma round_pos_spec (a b : Z) :
  0 < a -> 0 < b ->
  (0 < round_pos a b)%Q /\
  (Qabs (round_pos a b - inject_Z a / inject_Z b)
   <= inject_Z a / inject_Z b * ulp_half)%Q.
Proof.
  intros Ha Hb. unfold round_pos.
  pose proof (exponent_spec Ha Hb) as He.
  pose proof (scaled_spec (exponent a b) Ha Hb) as (Hn & Hd & Hq).
  destruct (scaled a b (exponent a b)) as [n d]. cbn [fst snd] in *.
  pose proof (pow2_pos (exponent a b)) as HE.
  set (E := pow2 (exponent a b)) in *.
  set (q := (inject_Z a / inject_Z b)%Q) in *.
  pose proof (round_half_even_near n Hd) as Hnear.
  pose proof (@round_half_even_lower n d (2 ^ 52) Hd ltac:(lia)) as Hlow.
  set (m := round_half_even n d) in *.
  rewrite Qred_correct.
  assert (H1 : (2 * (inject_Z m * inject_Z d - inject_Z n) <= inject_Z d)%Q).
  { unfold Qminus. rewrite <- inject_Z_mult, <- inject_Z_opp, <- inject_Z_plus.
    change 2%Q with (inject_Z 2). rewrite <- inject_Z_mult, <- Zle_Qle. lia. }
  assert (H2 : (2 * (inject_Z n - inject_Z m * inject_Z d) <= inject_Z d)%Q).
  { unfold Qminus. rewrite <- inject_Z_mult, <- inject_Z_opp, <- inject_Z_plus.
    change 2%Q with (inject_Z 2). rewrite <- inject_Z_mult, <- Zle_Qle. lia. }
  assert (H3 : (inject_Z (2 ^ 52) * inject_Z d <= inject_Z n)%Q).
  { rewrite <- inject_Z_mult, <- Zle_Qle. lia. }
  assert (H4 : (inject_Z (2 ^ 52) <= inject_Z m)%Q) by (rewrite <- Zle_Qle; lia).
  pose proof (inject_Z_pos Hd) as HD.
  assert (H5 : (q * inject_Z d == inject_Z n * E)%Q).
  { rewrite Hq. field. lra. }
  clearbody m q E. clear Hq Hnear Hlow He Hn Hd.
  set (M := inject_Z m) in *. set (N := inject_Z n) in *.
  set (D := inject_Z d) in *. clearbody M N D.
  change (inject_Z (2 ^ 52)) with (4503599627370496 # 1)%Q in *.
  assert (A1 : (2 * (M * D - N) * E <= D * E)%Q)
    by (apply Qmult_le_compat_r; lra).
  assert (A2 : (2 * (N - M * D) * E <= D * E)%Q)
    by (apply Qmult_le_compat_r; lra).
  assert (A3 : ((4503599627370496 # 1) * D * E <= N * E)%Q)
    by (apply Qmult_le_compat_r; lra).
  split.
  - apply Qmult_lt_0_compat; lra.
  - apply Qabs_Qle_condition. unfold ulp_half.
    split; apply (Qmult_le_r _ _ D HD); lra.
Qed.

Lemma RN_spec (q : Q) :
  (0 < q)%Q -> (0 < RN q)%Q /\ (Qabs (RN q - q) <= q * ulp_half)%Q.
Proof.
  destruct q as [n d]. intros Hq. unfold RN. cbn [Qnum Qden].
  destruct n as [|a|a]; try (exfalso; revert Hq; unfold Qlt; simpl; lia).
  rewrite (Qmake_Qdiv (Z.pos a) d).
  apply round_pos_spec; lia.
Qed.

(** Python's [v / total] on positive integers. *)
Lemma truediv_spec (v total : Z) :
  0 < v -> 0 < total ->
  exists p : float,
    truediv v total = Ok p /\ (0 < p)%Q /\
    (Qabs (p - inject_Z v / inject_Z total)
     <= inject_Z v / inject_Z total * ulp_half)%Q.
Proof.
  intros Hv Ht. unfold truediv.
  destruct (Z.eqb_spec total 0) as [->|_]; [lia|].
  eexists. split; [reflexivity|].
  apply RN_spec. apply Qlt_shift_div_l.
  - apply inject_Z_pos, Ht.
  - rewrite Qmult_0_l. apply inject_Z_pos, Hv.
Qed.

End FloatFacts.

Lemma add_pos (x y : float) : (0 < x)%Q -> (0 < y)%Q -> (0 < Float.add x y)%Q.
Proof.
  intros Hx Hy. unfold Float.add. apply FloatFacts.RN_spec. lra.
Qed.

(** ** Dictionaries *)

Section DictFacts.
Variables K V : Type.
Variable eqb : K -> K -> bool.
Hypothesis eqb_eq : forall a b, eqb a b = true <-> a = b.

Lemma upsert_nonempty (k : K) (f : V -> V) (dflt : V) (d : Dict.t K V) :
  Dict.upsert eqb k f dflt d <> [].
Proof. destruct d as [|[k' v] d]; simpl; [|destruct (eqb k k')]; discriminate. Qed.

Lemma upsert_Forall (P : V -> Prop) (k : K) (f : V -> V) (dflt : V)
  (d : Dict.t K V) :
  (forall v, P v -> P (f v)) -> P (f dflt) ->
  Forall (fun kv => P (snd kv)) d ->
  Forall (fun kv => P (snd kv)) (Dict.upsert eqb k f dflt d).
Proof.
  intros Hf Hd. induction d as [|[k' v] d IH]; intros Hall; simpl.
  - constructor; [exact Hd | constructor].
  - inversion Hall; subst. destruct (eqb k k').
    + constructor; [apply Hf; assumption | assumption].
    + constructor; [assumption | apply IH; assumption].
Qed.

Lemma upsert_keys_fresh (k : K) (f : V -> V) (dflt : V) (d : Dict.t K V) :
  Dict.get eqb d k = None ->
  Dict.upsert eqb k f dflt d = d ++ [(k, f dflt)].
Proof.
  induction d as [|[k' v] d IH]; simpl; intros H; [reflexivity|].
  destruct (eqb k k'); [discriminate|]. rewrite IH by assumption. reflexivity.
Qed.

Lemma get_In (d : Dict.t K V) (k : K) (v : V) :
  Dict.get eqb d k = Some v -> In (k, v) d.
Proof.
  induction d as [|[k' v'] d IH]; simpl; [discriminate|].
  destruct (eqb k k') eqn:E.
  - apply eqb_eq in E. subst. intros H. injection H as ->. left. reflexivity.
  - intros H. right. apply IH, H.
Qed.

Lemma get_None_keys (d : Dict.t K V) (k : K) :
  Dict.get eqb d k = None <-> ~ In k (Dict.keys d).
Proof.
  induction d as [|[k' v'] d IH]; simpl; [tauto|].
  destruct (eqb k k') eqn:E.
  - apply eqb_eq in E. subst. split; [discriminate | tauto].
  - assert (k' <> k).
    { intros ->. assert (eqb k k = true) by (apply eqb_eq; reflexivity). congruence. }
    rewrite IH. tauto.
Qed.

Lemma upsert_keys (k : K) (f : V -> V) (dflt : V) (d : Dict.t K V) (x : K) :
  In x (Dict.keys (Dict.upsert eqb k f dflt d)) <-> In x (Dict.keys d) \/ x = k.
Proof.
  induction d as [|[k' v] d IH]; simpl.
  - intuition.
  - destruct (eqb k k') eqn:E; simpl.
    + apply eqb_eq in E. subst. intuition.
    + rewrite IH. intuition.
Qed.

Lemma upsert_In (k : K) (f : V -> V) (dflt : V) (d : Dict.t K V)
  (k' : K) (v' : V) :
  In (k', v') (Dict.upsert eqb k f dflt d) ->
  In (k', v') d
  \/ (k' = k /\ (v' = f dflt \/ exists v, In (k, v) d /\ v' = f v)).
Proof.
  induction d as [|[k0 v0] d IH]; simpl.
  - intros [H|H]; [|destruct H]. injection H as <- <-. right. auto.
  - destruct (eqb k k0) eqn:E; simpl.
    + apply eqb_eq in E. subst k0. intros [H|H].
      * injection H as <- <-. right. split; [reflexivity|]. right. eauto.
      * auto.
    + intros [H|H]; [auto|].
      destruct (IH H) as [H'|(-> & [->|(v & Hv & ->)])]; [auto| |].
      * right. auto.
      * right. split; [reflexivity|]. right. eauto.
Qed.

Lemma keys_get (d : Dict.t K V) (k : K) :
  In k (Dict.keys d) -> exists v, Dict.get eqb d k = Some v /\ In (k, v) d.
Proof.
  intros H. destruct (Dict.get eqb d k) as [v|] eqn:E.
  - exists v. split; [reflexivity|]. eapply get_In; eassumption.
  - apply get_None_keys in E. contradiction.
Qed.

Lemma upsert_NoDup (k : K) (f : V -> V) (dflt : V) (d : Dict.t K V) :
  NoDup (Dict.keys d) -> NoDup (Dict.keys (Dict.upsert eqb k f dflt d)).
Proof.
  induction d as [|[k' v] d IH]; simpl; intros Hnd.
  - constructor; [intros H; destruct H | constructor].
  - inversion Hnd as [|? ? Hk' Hd]; subst.
    destruct (eqb k k') eqn:E; simpl.
    + constructor; assumption.
    + constructor; [|apply IH, Hd].
      intros Hin. apply upsert_keys in Hin.
      destruct Hin as [Hin|Hin]; [contradiction|].
      subst k'. assert (eqb k k = true) by (apply eqb_eq; reflexivity).
      congruence.
Qed.

End DictFacts.

(** ** The count table and its normalisation *)

Lemma bump_ok (automaton : counts) (curr c : pystr) :
  counts_ok automaton -> counts_ok (bump automaton curr c).
Proof.
  intros H. unfold counts_ok, bump.
  apply upsert_Forall with (P := transitions_ok); [| |exact H].
  - intros tr [_ Hpos]. split; [apply upsert_nonempty|].
    unfold Dict.values in *. rewrite Forall_map in *.
    apply upsert_Forall with (P := fun v => 0 < v).
    + intros v Hv. lia.
    + lia.
    + exact Hpos.
  - split; [discriminate|]. simpl. constructor; [lia | constructor].
Qed.

Lemma bump_nonempty (automaton : counts) (curr c : pystr) :
  bump automaton curr c <> [].
Proof. apply upsert_nonempty. Qed.

Lemma bump_keys (automaton : counts) (curr c k : pystr) :
  In k (Dict.keys (bump automaton curr c))
  <-> In k (Dict.keys automaton) \/ k = curr.
Proof. apply upsert_keys. exact str_eqb_eq. Qed.

Lemma bump_follows (automaton : counts) (curr c x : pystr) :
  follows (bump automaton curr c) x -> follows automaton x \/ x = c.
Proof.
  intros (k & tr & Hin & Hx). unfold bump in Hin.
  apply upsert_In in Hin; [|exact str_eqb_eq].
  destruct Hin as [Hin|(-> & [->|(tr0 & Hin & ->)])].
  - left. exists k, tr. auto.
  - simpl in Hx. destruct Hx as [<- | Hx]; [auto | destruct Hx].
  - apply upsert_keys in Hx; [|exact str_eqb_eq]. destruct Hx as [Hx| ->]; [|auto].
    left. exists curr, tr0. auto.
Qed.

Lemma count_loop_ok (gen : list (option pystr)) :
  forall (automaton automaton' : counts) (curr : pystr),
  counts_ok automaton ->
  count_loop automaton curr gen = Ok automaton' ->
  counts_ok automaton'.
Proof.
  induction gen as [|[c|] gen IH]; intros automaton automaton' curr Hok; simpl.
  - intros H. injection H as <-. exact Hok.
  - apply IH, bump_ok, Hok.
  - discriminate.
Qed.

Lemma count_loop_somes (items : list pystr) :
  forall (automaton : counts) (curr : pystr),
  exists automaton' : counts,
    count_loop automaton curr (map Some items) = Ok automaton'
    /\ (automaton <> [] \/ items <> [] -> automaton' <> []).
Proof.
  induction items as [|c items IH]; intros automaton curr; simpl.
  - exists automaton. split; [reflexivity|]. intros [H|H]; [exact H | contradiction].
  - destruct (IH (bump automaton curr c) (tl curr ++ c)) as (a' & E & H).
    exists a'. split; [exact E|]. intros _. apply H. left. apply bump_nonempty.
Qed.

Lemma count_loop_NoDup (gen : list (option pystr)) :
  forall (automaton automaton' : counts) (curr : pystr),
  NoDup (Dict.keys automaton) ->
  count_loop automaton curr gen = Ok automaton' ->
  NoDup (Dict.keys automaton').
Proof.
  induction gen as [|[c|] gen IH]; intros automaton automaton' curr Hnd; simpl.
  - intros H. injection H as <-. exact Hnd.
  - apply IH. unfold bump. apply upsert_NoDup; [exact str_eqb_eq | exact Hnd].
  - discriminate.
Qed.

(** With one-character contexts the loop of the builder visits the start
    context and every value but the last, and counts every value. *)
Lemma count_loop_order_one (items : list pystr) :
  forall (automaton automaton' : counts) (curr : pystr),
  single curr -> Forall single items ->
  count_loop automaton curr (map Some items) = Ok automaton' ->
  (forall k, In k (Dict.keys automaton')
             <-> In k (Dict.keys automaton) \/ In k (removelast (curr :: items)))
  /\ (forall x, follows automaton' x -> follows automaton x \/ In x items).
Proof.
  induction items as [|c items IH]; intros automaton automaton' curr Hc Hall.
  - simpl. intros H. injection H as <-. split; [intuition | auto].
  - inversion Hall as [|? ? Hsc Hitems]; subst.
    cbn [map count_loop].
    assert (Etl : tl curr ++ c = c).
    { destruct curr as [|a [|b curr]]; try discriminate. reflexivity. }
    rewrite Etl. intros H.
    destruct (IH _ _ _ Hsc Hitems H) as [Hk Hf]. split.
    + intros k. rewrite Hk, bump_keys.
      change (removelast (curr :: c :: items))
        with (curr :: removelast (c :: items)).
      simpl In. intuition.
    + intros x Hx. destruct (Hf x Hx) as [Hx'|Hx']; [|simpl; auto].
      apply bump_follows in Hx'. destruct Hx' as [H0 | ->]; simpl; auto.
Qed.

(** The probabilities of one row: as many as the counts, positive, and their
    exact sum within [2^-53] of the share of the counts in [total]. *)
Lemma mapM_truediv (total : Z) (vs : list Z) :
  0 < total -> Forall (fun v => 0 < v) vs ->
  exists ps : list float,
    mapM (fun v => Float.truediv v total) vs = Ok ps
    /\ List.length ps = List.length vs
    /\ Forall (fun p => (0 < p)%Q) ps
    /\ (Qabs (sumQ ps - inject_Z (sumZ vs) / inject_Z total)
        <= inject_Z (sumZ vs) / inject_Z total * Float.ulp_half)%Q.
Proof.
  intros Ht. induction vs as [|v vs IH]; intros Hall.
  - exists []. repeat split; try constructor.
    unfold sumZ, sumQ. simpl. unfold Qdiv. rewrite Qmult_0_l. simpl.
    unfold Qle. simpl. lia.
  - inversion Hall as [|? ? Hv Hvs]; subst.
    destruct (IH Hvs) as (ps & Eps & Hlen & Hpos & Hsum).
    destruct (FloatFacts.truediv_spec Hv Ht) as (p & Ep & Hp & Herr).
    exists (p :: ps).
    split; [simpl; rewrite Ep; simpl; rewrite Eps; reflexivity|].
    split; [simpl; rewrite Hlen; reflexivity|].
    split; [constructor; assumption|].
    + change (sumQ (p :: ps)) with (p + sumQ ps)%Q.
      rewrite sumZ_cons, inject_Z_plus.
      pose proof (FloatFacts.inject_Z_nonzero Ht) as Hnz.
      assert (Ediv : ((inject_Z v + inject_Z (sumZ vs)) / inject_Z total
                      == inject_Z v / inject_Z total
                         + inject_Z (sumZ vs) / inject_Z total)%Q)
        by (field; exact Hnz).
      rewrite Ediv.
      apply Qabs_Qle_condition in Hsum. apply Qabs_Qle_condition in Herr.
      apply Qabs_Qle_condition.
      set (x := (inject_Z v / inject_Z total)%Q) in *.
      set (y := (inject_Z (sumZ vs) / inject_Z total)%Q) in *.
      set (u := Float.ulp_half) in *.
      split; lra.
Qed.

Lemma normalize_entry_spec (transitions : Dict.t pystr Z) :
  transitions_ok transitions ->
  exists e : entry,
    normalize_entry transitions = Ok e
    /\ shape e = Tuple
    /\ successors e = Dict.keys transitions
    /\ distribution e.
Proof.
  intros [Hne Hpos]. unfold normalize_entry.
  assert (Htot : 0 < sumZ (Dict.values transitions)).
  { apply sumZ_pos; [|exact Hpos]. destruct transitions; [contradiction|discriminate]. }
  destruct (mapM_truediv Htot Hpos) as (ps & Eps & Hlen & Hps & Hsum).
  rewrite Eps. simpl. eexists. split; [reflexivity|].
  repeat split; simpl.
  - unfold Dict.keys, Dict.values in *. rewrite Hlen, !length_map. reflexivity.
  - exact Hps.
  - assert (Hone : (inject_Z (sumZ (Dict.values transitions))
                    / inject_Z (sumZ (Dict.values transitions)) == 1)%Q)
      by (field; apply FloatFacts.inject_Z_nonzero, Htot).
    rewrite Hone in Hsum.
    eapply Qle_trans; [exact Hsum|]. unfold Float.ulp_half, Qle. simpl. lia.
Qed.

Lemma set_Forall (P : entry -> Prop) (k : pystr) (e : entry) (res : Automaton) :
  P e -> Forall (fun kv => P (snd kv)) res ->
  Forall (fun kv => P (snd kv)) (Dict.set str_eqb k e res).
Proof.
  intros He Hres. unfold Dict.set.
  apply upsert_Forall with (P := P); auto.
Qed.

Lemma set_In (res : Automaton) (k k' : pystr) (e e' : entry) :
  In (k', e') (Dict.set str_eqb k e res) ->
  In (k', e') res \/ (k' = k /\ e' = e).
Proof.
  unfold Dict.set. intros H. apply upsert_In in H; [|exact str_eqb_eq].
  destruct H as [H|(-> & [->|(v & _ & ->)])]; auto.
Qed.

Lemma set_keys (res : Automaton) (k : pystr) (e : entry) (x : pystr) :
  In x (Dict.keys (Dict.set str_eqb k e res)) <-> In x (Dict.keys res) \/ x = k.
Proof. apply upsert_keys. exact str_eqb_eq. Qed.

Lemma normalize_loop_spec (P : entry -> Prop) (items : counts) :
  (forall tr e, transitions_ok tr -> normalize_entry tr = Ok e -> P e) ->
  counts_ok items ->
  forall res : Automaton,
  Forall (fun kv => P (snd kv)) res ->
  exists automaton : Automaton,
    normalize_loop res items = Ok automaton
    /\ Forall (fun kv => P (snd kv)) automaton.
Proof.
  intros HP. induction items as [|[state tr] items IH]; intros Hok res Hres.
  - exists res. split; [reflexivity | exact Hres].
  - inversion Hok as [|? ? Htr Hitems]; subst. simpl in Htr.
    destruct (normalize_entry_spec Htr) as (e & Ee & _).
    simpl. rewrite Ee. simpl.
    apply IH; [exact Hitems|].
    apply set_Forall; [eapply HP; eassumption | exact Hres].
Qed.

Lemma normalize_loop_nonempty (items : counts) :
  forall res automaton : Automaton,
  normalize_loop res items = Ok automaton ->
  res <> [] \/ items <> [] -> automaton <> [].
Proof.
  induction items as [|[state tr] items IH]; intros res automaton; simpl.
  - intros H [Hne|Hne]; [congruence | contradiction].
  - intros H _. apply bind_ok in H as (e & _ & H).
    apply (IH _ _ H). left. apply upsert_nonempty.
Qed.

(** What [normalize_automaton] returns, entry by entry. *)
Lemma normalize_loop_entries (items : counts) :
  forall res automaton : Automaton,
  normalize_loop res items = Ok automaton ->
  (forall k, In k (Dict.keys automaton)
             <-> In k (Dict.keys res) \/ In k (Dict.keys items))
  /\ (forall k e, In (k, e) automaton ->
        In (k, e) res
        \/ exists tr, In (k, tr) items /\ normalize_entry tr = Ok e).
Proof.
  induction items as [|[state tr] items IH]; intros res automaton; simpl.
  - intros H. injection H as <-. split; [intuition | auto].
  - intros H. apply bind_ok in H as (e & He & H).
    destruct (IH _ _ H) as [Hk Hin]. split.
    + intros k. rewrite Hk, set_keys. intuition.
    + intros k e' Hke. destruct (Hin k e' Hke) as [Hres|(tr' & Htr & Hn)].
      * apply set_In in Hres. destruct Hres as [Hres|[-> ->]]; [auto|].
        right. exists tr. auto.
      * right. exists tr'. auto.
Qed.

Lemma normalize_loop_NoDup (items : counts) :
  forall res automaton : Automaton,
  NoDup (Dict.keys res) ->
  normalize_loop res items = Ok automaton ->
  NoDup (Dict.keys automaton).
Proof.
  induction items as [|[state tr] items IH]; intros res automaton Hnd; simpl.
  - intros H. injection H as <-. exact Hnd.
  - intros H. apply bind_ok in H as (e & _ & H).
    eapply IH; [|exact H].
    unfold Dict.set. apply upsert_NoDup; [exact str_eqb_eq | exact Hnd].
Qed.

(** Normalising a count table the builder can produce never fails. *)
Lemma normalize_automaton_total (automaton : counts) :
  counts_ok automaton ->
  exists res : Automaton, normalize_automaton automaton = Ok res.
Proof.
  intros Hok.
  destruct (@normalize_loop_spec (fun _ => True) automaton) with (res := @nil (pystr * entry))
    as (res & E & _); auto.
  exists res. exact E.
Qed.

Lemma normalize_automaton_distribution (automaton : counts) (res : Automaton) :
  counts_ok automaton ->
  normalize_automaton automaton = Ok res ->
  Forall (fun kv => distribution (snd kv)) res.
Proof.
  intros Hok E.
  destruct (@normalize_loop_spec distribution automaton) with (res := @nil (pystr * entry))
    as (res' & E' & H); auto.
  - intros tr e Htr Etr.
    destruct (normalize_entry_spec Htr) as (e' & Ee' & _ & _ & Hd). congruence.
  - unfold normalize_automaton in E. congruence.
Qed.

Lemma prime_somes (n : nat) :
  forall (items : list pystr) (curr : pystr),
  prime n curr (map Some items)
  = if Nat.leb n (List.length items)
    then Ok (curr ++ concat (firstn n items), map Some (skipn n items))
    else Raise StopIteration.
Proof.
  induction n as [|n IH]; intros items curr; simpl.
  - rewrite app_nil_r. reflexivity.
  - destruct items as [|c items]; simpl; [reflexivity|].
    rewrite IH. destruct (Nat.leb n (List.length items)); [|reflexivity].
    rewrite app_assoc. reflexivity.
Qed.

(** ** The character filter *)

Section FilterFacts.
Context {L : Lowering}.

Lemma char_in_non_printable (c : char) :
  char_in c non_printable = (N.eqb c NL || dropped c)%bool.
Proof.
  rewrite non_printable_eq. unfold dropped, char_in, NL. simpl.
  destruct (N.eqb c 9), (N.eqb c 10), (N.eqb c 13), (N.eqb c 11), (N.eqb c 12);
    reflexivity.
Qed.

Lemma dropped_not_newline (c : char) : dropped c = true -> N.eqb c NL = false.
Proof.
  unfold dropped, char_in, NL. simpl. rewrite !orb_true_iff, !N.eqb_eq.
  intros H. apply N.eqb_neq. lia.
Qed.

Lemma kept_not_newline (ignore_case : bool) (c : char) :
  N.eqb c NL = false ->
  str_eqb (if negb ignore_case then lower c else [c]) [NL] = false.
Proof.
  intros Hc. apply str_eqb_neq. apply N.eqb_neq in Hc.
  destruct ignore_case; simpl.
  - intros H. injection H as H. contradiction.
  - apply lower_newline, Hc.
Qed.

Lemma filter_step_described (ignore_case : bool) (st : filter_state)
  (before : pystr) (c : char) :
  tracks st before ->
  snd (filter_step ignore_case st c) = emitted ignore_case before c
  /\ tracks (fst (filter_step ignore_case st c)) (c :: before).
Proof.
  unfold tracks, filter_step, emitted, after_newline, last_kept. intros Hinv.
  rewrite char_in_non_printable. simpl find.
  destruct (dropped c) eqn:Ed.
  - rewrite (dropped_not_newline c Ed) in *. simpl. auto.
  - rewrite orb_false_r. simpl negb at 1.
    destruct (N.eqb c NL) eqn:En; cbn [negb andb].
    + apply N.eqb_eq in En. subst c.
      fold (last_kept before) in *. fold (after_newline before) in *.
      rewrite Hinv. destruct (after_newline before); simpl; auto.
    + simpl. rewrite ?En. split; [reflexivity|]. apply kept_not_newline, En.
Qed.

Lemma filter_loop_described (ignore_case : bool) (text : pystr) :
  forall (st : filter_state) (before : pystr),
  tracks st before ->
  snd (filter_loop ignore_case st text) = described ignore_case before text.
Proof.
  induction text as [|c text IH]; intros st before Hinv; [reflexivity|].
  simpl. destruct (filter_step_described ignore_case c Hinv) as [Hys Hst].
  destruct (filter_step ignore_case st c) as [st1 ys]. simpl in *.
  specialize (IH st1 (c :: before) Hst).
  destruct (filter_loop ignore_case st1 text) as [st2 zs]. simpl in *.
  congruence.
Qed.

(** The closing value: [None] exactly when nothing was yielded; otherwise the
    first yield, unless that yield is the space put for a newline, in which
    case it is the newline. *)
Lemma filter_loop_first (ignore_case : bool) (text : pystr) :
  forall st : filter_state,
  match first_char st with
  | Some x => first_char (fst (filter_loop ignore_case st text)) = Some x
  | None =>
      match snd (filter_loop ignore_case st text) with
      | [] => first_char (fst (filter_loop ignore_case st text)) = None
      | y :: _ =>
          first_char (fst (filter_loop ignore_case st text)) = Some y
          \/ (first_char (fst (filter_loop ignore_case st text)) = Some [NL]
              /\ y = [SPACE])
      end
  end.
Proof.
  induction text as [|c text IH]; intros st.
  - simpl. destruct (first_char st); reflexivity.
  - simpl. unfold filter_step.
    destruct (negb (char_in c non_printable)).
    + match goal with |- context [filter_loop _ ?s text] => specialize (IH s) end.
      destruct (filter_loop ignore_case _ text) as [st2 zs]. simpl in *.
      destruct (first_char st); simpl in *; auto.
    + destruct (N.eqb c NL && negb (opt_str_eqb (last_char st) [c]))%bool eqn:E.
      * apply andb_true_iff in E as [E _]. apply N.eqb_eq in E. subst c.
        match goal with |- context [filter_loop _ ?s text] => specialize (IH s) end.
        destruct (filter_loop ignore_case _ text) as [st2 zs]. simpl in *.
        destruct (first_char st); simpl in *; auto.
      * specialize (IH st).
        destruct (filter_loop ignore_case st text) as [st2 zs]. simpl in *.
        exact IH.
Qed.

Lemma sentinel_none (text : pystr) (ignore_case : bool) :
  filtered text ignore_case = [] -> sentinel text ignore_case = None.
Proof.
  unfold filtered, sentinel. intros H.
  pose proof (filter_loop_first ignore_case text init_state) as F.
  simpl in F. rewrite H in F. exact F.
Qed.

Lemma sentinel_some (text : pystr) (ignore_case : bool) :
  filtered text ignore_case <> [] ->
  exists s, sentinel text ignore_case = Some s.
Proof.
  unfold filtered, sentinel. intros H.
  pose proof (filter_loop_first ignore_case text init_state) as F.
  simpl in F.
  destruct (snd (filter_loop ignore_case init_state text)) as [|y ys];
    [contradiction|].
  destruct F as [F|[F _]]; eauto.
Qed.

(** The closing value is the first yield, unless that yield is the space put
    for a leading newline. *)
Lemma sentinel_first (text : pystr) (ignore_case : bool) (y : pystr)
  (ys : list pystr) :
  filtered text ignore_case = y :: ys ->
  sentinel text ignore_case = Some y
  \/ (sentinel text ignore_case = Some [NL] /\ y = [SPACE]).
Proof.
  unfold filtered, sentinel. intros H.
  pose proof (filter_loop_first ignore_case text init_state) as F.
  simpl in F. rewrite H in F. exact F.
Qed.

(** When the case is kept every yield is one character. *)
Lemma described_singles (text : pystr) :
  forall before : pystr, Forall single (described true before text).
Proof.
  induction text as [|c text IH]; intros before; simpl; [constructor|].
  apply Forall_app. split; [|apply IH].
  unfold emitted. destruct (dropped c); [constructor|].
  destruct (N.eqb c NL); [destruct (after_newline before)|];
    repeat constructor.
Qed.

Lemma filtered_singles (text : pystr) : Forall single (filtered text true).
Proof.
  unfold filtered.
  erewrite filter_loop_described with (before := []) by reflexivity.
  apply described_singles.
Qed.

(** When something passes the filter, the generator yields no [None]. *)
Lemma next_character_somes (text : pystr) (ignore_case : bool) :
  filtered text ignore_case <> [] ->
  exists s : pystr,
    next_character text ignore_case
    = map Some (filtered text ignore_case ++ [s]).
Proof.
  intros H. destruct (sentinel_some _ _ H) as [s Hs].
  exists s. unfold next_character. rewrite Hs, map_app. reflexivity.
Qed.

(** C7, as amended. For every text and case flag the filter yields what
    [described] tells from the text alone: tab, carriage return, vertical tab
    and form feed are dropped; a newline is dropped when the nearest
    character before it other than those four is a newline, and becomes one
    space otherwise; every other character, control characters and
    characters beyond ASCII included, passes through, lowercased when
    [ignore_case] is false. *)
Theorem filtered_described (text : pystr) (ignore_case : bool) :
  filtered text ignore_case = described ignore_case [] text.
Proof.
  unfold filtered. apply filter_loop_described. reflexivity.
Qed.

End FilterFacts.

(** C7, as stated, fails: the bell character (code 7) is a control character
    and is yielded, not dropped; and in a newline, a tab and a newline the
    second newline is not preceded by a newline, yet it is dropped. *)
Lemma filter_keeps_control_characters :
  filtered [7%N] true = [[7%N]]
  /\ worded true None [7%N] = []
  /\ filtered [NL; 9%N; NL] true = [[SPACE]]
  /\ worded true None [NL; 9%N; NL] = [[SPACE]; [SPACE]].
Proof. repeat split. Qed.

(** C8, at the failing input: a text that starts with a newline. The first
    value yielded is the space put for the newline, and the closing value is
    the newline itself. *)
Theorem sentinel_of_leading_newline :
  next_character (NL :: str "ab") false
  = [Some [SPACE]; Some (str "a"); Some (str "b"); Some [NL]]
  /\ sentinel (NL :: str "ab") false <> hd_error (filtered (NL :: str "ab") false).
Proof. split; [reflexivity | discriminate]. Qed.

(** ** The builder *)

Section BuilderFacts.
Context {L : Lowering}.

(** C1. Every value of an automaton that [create_automaton] returns, for any
    training text, order and case flag, is a probability distribution over
    its successors: as many probabilities as successor characters, every
    probability strictly positive, and the probabilities summing to 1 within
    1e-9 (the exact sum of the binary64 values is within [2^-53] of 1). *)
Theorem create_automaton_distribution
  (order : Z) (text : pystr) (ignore_case : bool) (automaton : Automaton)
  (k : pystr) (e : entry) :
  create_automaton order text ignore_case = Ok automaton ->
  In (k, e) automaton ->
  List.length (successors e) = List.length (weights e)
  /\ Forall (fun p => (0 < p)%Q) (weights e)
  /\ (Qabs (sumQ (weights e) - 1) <= 1 # 1000000000)%Q.
Proof.
  unfold create_automaton. intros H Hin.
  apply bind_ok in H as ([curr gen'] & _ & H).
  apply bind_ok in H as (table & Htable & H).
  assert (Hok : counts_ok table).
  { eapply count_loop_ok; [|exact Htable]. constructor. }
  pose proof (normalize_automaton_distribution Hok H) as Hall.
  rewrite Forall_forall in Hall. exact (Hall _ Hin).
Qed.

(** The keys of an automaton the builder returns are distinct, as those of a
    Python dict are. *)
Lemma create_automaton_NoDup
  (order : Z) (text : pystr) (ignore_case : bool) (automaton : Automaton) :
  create_automaton order text ignore_case = Ok automaton ->
  NoDup (Dict.keys automaton).
Proof.
  unfold create_automaton. intros H.
  apply bind_ok in H as ([curr gen'] & _ & H).
  apply bind_ok in H as (table & Htable & H).
  eapply normalize_loop_NoDup; [|exact H]. constructor.
Qed.

(** The builder returns an automaton with at least one state as soon as the
    filter yields at least [order] values and at least one. *)
Lemma create_automaton_total (order : Z) (text : pystr) (ignore_case : bool) :
  filtered text ignore_case <> [] ->
  (Z.to_nat order <= List.length (filtered text ignore_case))%nat ->
  exists automaton : Automaton,
    create_automaton order text ignore_case = Ok automaton
    /\ automaton <> [].
Proof.
  intros Hne Hlen. unfold create_automaton.
  destruct (next_character_somes _ _ Hne) as [s ->].
  rewrite prime_somes, length_app. simpl List.length.
  destruct (Nat.leb_spec (Z.to_nat order)
              (List.length (filtered text ignore_case) + 1)); [|lia].
  cbn [bind].
  set (rest := skipn (Z.to_nat order) (filtered text ignore_case ++ [s])).
  assert (Hrest : rest <> []).
  { unfold rest. intros E.
    apply (f_equal (@List.length pystr)) in E.
    rewrite length_skipn, length_app in E. simpl in E. lia. }
  destruct (count_loop_somes rest (@nil (pystr * Dict.t pystr Z))
              ([] ++ concat (firstn (Z.to_nat order)
                               (filtered text ignore_case ++ [s]))))
    as (table & Etable & Htable).
  rewrite Etable. cbn [bind].
  assert (Hok : counts_ok table).
  { eapply count_loop_ok; [|exact Etable]. constructor. }
  destruct (normalize_automaton_total Hok) as [automaton E].
  exists automaton. split; [exact E|].
  unfold normalize_automaton in E.
  eapply normalize_loop_nonempty; [exact E|]. right. apply Htable. right. exact Hrest.
Qed.

(** C10, as amended. When fewer than [order] values pass the filter
    ([order >= 1]), the builder never raises an [InsufficientDataError]: it
    raises [TypeError] when nothing passes the filter (the generator yields
    [None], which cannot be added to a string); [StopIteration] when the
    values and the closing one together are fewer than [order]; and it
    returns the empty automaton when they are exactly [order]. *)
Theorem create_automaton_short_text
  (order : Z) (text : pystr) (ignore_case : bool) :
  1 <= order ->
  (List.length (filtered text ignore_case) < Z.to_nat order)%nat ->
  create_automaton order text ignore_case
  = match filtered text ignore_case with
    | [] => Raise TypeError
    | _ :: _ =>
        if Nat.ltb (S (List.length (filtered text ignore_case))) (Z.to_nat order)
        then Raise StopIteration
        else Ok []
    end.
Proof.
  intros Horder Hshort. unfold create_automaton.
  destruct (filtered text ignore_case) as [|y ys] eqn:Ey.
  - unfold next_character. rewrite Ey, (sentinel_none _ _ Ey). simpl.
    destruct (Z.to_nat order) as [|n] eqn:En; [lia | reflexivity].
  - assert (Hne : filtered text ignore_case <> []) by (rewrite Ey; discriminate).
    destruct (next_character_somes _ _ Hne) as [s ->].
    rewrite Ey, prime_somes, length_app. simpl List.length in *.
    destruct (Nat.ltb_spec (S (S (List.length ys))) (Z.to_nat order)) as [Hlt|Hge].
    + destruct (Nat.leb _ _) eqn:E; [apply Nat.leb_le in E; lia | reflexivity].
    + destruct (Nat.leb _ _) eqn:E; [|apply Nat.leb_gt in E; lia].
      cbn [bind]. rewrite skipn_all2; [reflexivity|].
      simpl. rewrite length_app. simpl. lia.
Qed.

End BuilderFacts.

(** The theorem at the text ["aab ac"], order 1, for the row of ["a"]. *)
Lemma create_automaton_distribution_witness :
  List.length (successors row_a) = List.length (weights row_a)
  /\ Forall (fun p => (0 < p)%Q) (weights row_a)
  /\ (Qabs (sumQ (weights row_a) - 1) <= 1 # 1000000000)%Q.
Proof.
  apply (@create_automaton_distribution AsciiLowering 1 (str "aab ac") false
           [(str "a", row_a);
            (str "b", {| shape := Tuple; successors := [str " "]; weights := [1%Q] |});
            (str " ", {| shape := Tuple; successors := [str "a"]; weights := [1%Q] |});
            (str "c", {| shape := Tuple; successors := [str "a"]; weights := [1%Q] |})]
           (str "a") row_a).
  - vm_compute. reflexivity.
  - left. reflexivity.
Defined.

(** C10, as stated, fails: the empty training text with order 1 ends in a
    [TypeError], and a one-character text with order 3 in [StopIteration]. *)
Lemma empty_text_raises_type_error :
  create_automaton 1 [] false = Raise TypeError
  /\ create_automaton 3 (str "a") false = Raise StopIteration.
Proof. split; reflexivity. Qed.

(** The theorem at the text ["a"] with order 2: the empty automaton. *)
Lemma create_automaton_short_text_witness :
  create_automaton 2 (str "a") false = Ok [].
Proof.
  apply (@create_automaton_short_text AsciiLowering 2 (str "a") false).
  - lia.
  - simpl. lia.
Defined.

(** ** Sampling *)

(** The loop of [bisect] stays between its bounds. *)
Lemma bisect_loop_bounds (a : list float) (x : float) (fuel : nat) :
  forall lo hi : nat, (lo <= hi)%nat ->
  (lo <= bisect_loop fuel a x lo hi <= hi)%nat.
Proof.
  induction fuel as [|fuel IH]; intros lo hi Hle; cbn [bisect_loop]; [lia|].
  destruct (Nat.ltb_spec lo hi) as [Hlt|Hge]; [|lia].
  assert (Hmid : (lo <= Nat.div (lo + hi) 2 < hi)%nat).
  { pose proof (Nat.div_mod_eq (lo + hi) 2).
    pose proof (Nat.mod_upper_bound (lo + hi) 2 ltac:(lia)). lia. }
  destruct (Float.ltb x (nth (Nat.div (lo + hi) 2) a 0%Q)).
  - specialize (IH lo (Nat.div (lo + hi) 2)). lia.
  - specialize (IH (Nat.div (lo + hi) 2 + 1)%nat hi). lia.
Qed.

(** [hi - lo] turns are all the loop can take: more fuel changes nothing. *)
Lemma bisect_loop_fuel (a : list float) (x : float) (fuel : nat) :
  forall (extra lo hi : nat), (hi - lo <= fuel)%nat ->
  bisect_loop (fuel + extra) a x lo hi = bisect_loop fuel a x lo hi.
Proof.
  induction fuel as [|fuel IH]; intros extra lo hi Hle.
  - simpl. destruct extra; cbn [bisect_loop]; [reflexivity|].
    destruct (Nat.ltb_spec lo hi); [lia | reflexivity].
  - cbn [bisect_loop Nat.add]. destruct (Nat.ltb_spec lo hi) as [Hlt|Hge]; [|reflexivity].
    assert (Hmid : (lo <= Nat.div (lo + hi) 2 < hi)%nat).
  { pose proof (Nat.div_mod_eq (lo + hi) 2).
    pose proof (Nat.mod_upper_bound (lo + hi) 2 ltac:(lia)). lia. }
    destruct (Float.ltb x (nth (Nat.div (lo + hi) 2) a 0%Q)); apply IH; lia.
Qed.

Lemma bisect_bounds (a : list float) (x : float) (lo hi : nat) :
  (lo <= hi)%nat -> (lo <= bisect a x lo hi <= hi)%nat.
Proof. apply bisect_loop_bounds. Qed.

Lemma accumulate_from_spec (ws : list float) :
  forall total : float, (0 < total)%Q -> Forall (fun w => (0 < w)%Q) ws ->
  List.length (accumulate_from total ws) = List.length ws
  /\ Forall (fun w => (0 < w)%Q) (accumulate_from total ws).
Proof.
  induction ws as [|w ws IH]; intros total Ht Hws; simpl.
  - split; [reflexivity | constructor].
  - inversion Hws; subst.
    destruct (IH (Float.add total w)) as [Hl Hp]; [apply add_pos; assumption | assumption |].
    split; [rewrite Hl; reflexivity|].
    constructor; [apply add_pos; assumption | exact Hp].
Qed.

Lemma accumulate_spec (ws : list float) :
  Forall (fun w => (0 < w)%Q) ws ->
  List.length (accumulate ws) = List.length ws
  /\ Forall (fun w => (0 < w)%Q) (accumulate ws).
Proof.
  destruct ws as [|w ws]; intros Hws; simpl.
  - split; [reflexivity | constructor].
  - inversion Hws; subst.
    destruct (accumulate_from_spec H1 H2) as [Hl Hp].
    split; [rewrite Hl; reflexivity | constructor; assumption].
Qed.

(** ** The random walk *)

Section Walk.
Context {R : Random}.

(** A state with a single successor: the successor is chosen whatever the
    generator returns. *)
Lemma choices_singleton (c : pystr) (w : float) (g : rng) :
  Float.leb w 0%Q = false ->
  choices [c] [w] g = Ok (c, snd (random g)).
Proof.
  intros Hw. unfold choices. simpl. rewrite Hw.
  destruct (random g) as [r g']. reflexivity.
Qed.

(** [random.choices] on a distribution returns one of the population. *)
Lemma choices_total (population : list pystr) (ws : list float) (g : rng) :
  List.length population = List.length ws ->
  ws <> [] ->
  Forall (fun w => (0 < w)%Q) ws ->
  exists c : pystr,
    choices population ws g = Ok (c, snd (random g)) /\ In c population.
Proof.
  intros Hlen Hne Hpos. unfold choices.
  destruct (accumulate_spec Hpos) as [Hl Hp].
  rewrite Hl, Hlen, Nat.eqb_refl. simpl negb. cbv iota.
  destruct (rev (accumulate ws)) as [|total rest] eqn:Erev.
  - apply (f_equal (@List.length float)) in Erev.
    rewrite length_rev, Hl in Erev. destruct ws; [contradiction | discriminate].
  - assert (Htotal : (0 < total)%Q).
    { rewrite Forall_forall in Hp. apply Hp.
      assert (Hin : In total (rev (accumulate ws)))
        by (rewrite Erev; left; reflexivity).
      apply in_rev in Hin. exact Hin. }
    assert (Hleb : Float.leb total 0%Q = false).
    { unfold Float.leb. destruct (Qle_bool total 0) eqn:E; [|reflexivity].
      apply Qle_bool_iff in E. lra. }
    rewrite Hleb. destruct (random g) as [r g1]. simpl snd.
    set (i := bisect (accumulate ws) (Float.mul r total) 0 (List.length ws - 1)).
    assert (Hi : (i < List.length population)%nat).
    { pose proof (@bisect_bounds (accumulate ws) (Float.mul r total) 0
                    (List.length ws - 1) ltac:(lia)).
      fold i in H. destruct ws; [contradiction|]. simpl in *. lia. }
    destruct (nth_error population i) as [c|] eqn:Ec.
    + exists c. split; [reflexivity|]. eapply nth_error_In, Ec.
    + apply nth_error_None in Ec. lia.
Qed.

Lemma walk_length (automaton : Automaton) (n : nat) :
  forall (state : pystr) (g : rng) (res : list pystr),
  walk automaton n state g = Ok res -> List.length res = n.
Proof.
  induction n as [|n IH]; intros state g res; simpl.
  - intros H. injection H as <-. reflexivity.
  - intros H. apply bind_ok in H as (e & _ & H).
    apply bind_ok in H as ([c g'] & _ & H).
    apply bind_ok in H as (res' & Hres & H).
    injection H as <-. simpl. f_equal. eapply IH, Hres.
Qed.

(** Once the advanced context is no key of the automaton, the next turn of
    the loop ends the whole walk with the [KeyError] of the lookup. *)
Lemma walk_unknown_context (automaton : Automaton) (j : nat) :
  forall (n : nat) (state state' : pystr) (g g' : rng),
  advance automaton j state g = Ok (state', g') ->
  Dict.get str_eqb automaton state' = None ->
  (j < n)%nat ->
  walk automaton n state g = Raise KeyError.
Proof.
  induction j as [|j IH]; intros n state state' g g' Hadv Hget Hlt;
    (destruct n as [|n]; [lia|]); simpl in *.
  - injection Hadv as -> ->. unfold Dict.item. rewrite Hget. reflexivity.
  - destruct (Dict.item str_eqb automaton state) as [e|x]; [|discriminate].
    simpl in *.
    destruct (choices (successors e) (weights e) g) as [[c g1]|x];
      [|discriminate].
    simpl in *.
    erewrite IH; [reflexivity | exact Hadv | exact Hget | lia].
Qed.

(** The same, for the statements of [generate] that follow the loading of
    the automaton. *)
Lemma generate_from_unknown_context
  (automaton : Automaton) (length : Z) (g g' : rng) (state state' : pystr)
  (j : nat) :
  Dict.first_key automaton = Ok state ->
  advance automaton j state g = Ok (state', g') ->
  Dict.get str_eqb automaton state' = None ->
  Z.of_nat j < length ->
  generate_from automaton length g = Raise KeyError.
Proof.
  intros Hfirst Hadv Hget Hlt. unfold generate_from. rewrite Hfirst. simpl.
  erewrite walk_unknown_context; [reflexivity | exact Hadv | exact Hget | lia].
Qed.

(** In a closed automaton the walk never fails, whatever its length. *)
Lemma walk_total (automaton : Automaton) (n : nat) :
  closed automaton ->
  forall (state : pystr) (g : rng),
  In state (Dict.keys automaton) ->
  exists res : list pystr,
    walk automaton n state g = Ok res /\ Forall single res.
Proof.
  intros Hclosed. induction n as [|n IH]; intros state g Hstate.
  - exists []. split; [reflexivity | constructor].
  - destruct (keys_get str_eqb str_eqb_eq _ _ Hstate) as (e & Hget & Hin).
    destruct (Hclosed _ _ Hin) as (Hs & Hne & Hlen & Hpos & Hsucc).
    assert (Hws : weights e <> []).
    { intros E. rewrite E in Hlen. destruct (successors e); [contradiction | discriminate]. }
    destruct (choices_total (successors e) g Hlen Hws Hpos) as (c & Ec & Hc).
    pose proof (Hsucc c Hc) as Hkey.
    destruct (keys_get str_eqb str_eqb_eq _ _ Hkey) as (e' & _ & Hin').
    destruct (Hclosed _ _ Hin') as (Hsc & _).
    assert (Etl : tl state ++ c = c).
    { destruct state as [|a [|b state]]; try discriminate. reflexivity. }
    destruct (IH c (snd (random g)) Hkey) as (res & Eres & Hres).
    exists (c :: res). split; [|constructor; assumption].
    cbn [walk]. unfold Dict.item. rewrite Hget. cbn [bind].
    rewrite Ec. cbn [bind]. rewrite Etl, Eres. reflexivity.
Qed.

Lemma concat_singles (res : list pystr) :
  Forall single res -> List.length (concat res) = List.length res.
Proof.
  induction 1 as [|s res Hs _ IH]; simpl; [reflexivity|].
  rewrite length_app, IH, Hs. reflexivity.
Qed.

(** A nonpositive length leaves the loop unentered. *)
Lemma generate_from_nonpositive (automaton : Automaton) (length : Z) (g : rng) :
  length <= 0 -> automaton <> [] ->
  generate_from automaton length g = Ok [].
Proof.
  intros Hlen Hne. unfold generate_from.
  destruct automaton as [|[k e] rest]; [contradiction|]. simpl.
  replace (Z.to_nat length) with O by lia. reflexivity.
Qed.

(** From a closed automaton with a state, [generate] returns a string of
    exactly [length] characters, for every [length >= 0]. *)
Lemma generate_from_closed (automaton : Automaton) (length : Z) (g : rng) :
  closed automaton -> automaton <> [] -> 0 <= length ->
  exists s : pystr,
    generate_from automaton length g = Ok s
    /\ Z.of_nat (List.length s) = length.
Proof.
  intros Hclosed Hne Hlen. unfold generate_from.
  destruct automaton as [|[k e] rest] eqn:Ea; [contradiction|].
  cbn [Dict.first_key bind]. rewrite <- Ea in *.
  assert (Hk : In k (Dict.keys automaton)) by (rewrite Ea; left; reflexivity).
  destruct (walk_total (Z.to_nat length) Hclosed k g Hk) as (res & Eres & Hres).
  rewrite Eres. cbn [bind]. eexists. split; [reflexivity|].
  rewrite (concat_singles Hres), (walk_length _ _ _ _ Eres). lia.
Qed.

End Walk.

(** ** The entry point *)

Section GenerateFacts.
Context {L : Lowering} {R : Random}.

(** C5, as amended. Whenever the context reached after [j] turns of the walk
    has no entry in the automaton, built from the file or imported from it,
    and the output is not complete ([j < length]), [generate] has no
    fallback: the whole call ends with the [KeyError] of the failed lookup
    and returns no character. The failure is deterministic, and no
    [UnknownContextError] exists. *)
Theorem unknown_context_raises_key_error
  (length order : Z) (file : source_file) (seed : option Z)
  (export raw ignore_case : bool) (entropy : Z)
  (automaton : Automaton) (state state' : pystr) (g' : rng) (j : nat) :
  (if raw then create_automaton order (file_text file) ignore_case
   else doc <- file_json file ;; import_automaton doc) = Ok automaton ->
  Dict.first_key automaton = Ok state ->
  advance automaton j state (random_seed seed entropy) = Ok (state', g') ->
  Dict.get str_eqb automaton state' = None ->
  Z.of_nat j < length ->
  returned (generate length order file seed export raw ignore_case entropy)
  = Raise KeyError.
Proof.
  intros Hload Hfirst Hadv Hget Hlt. unfold generate.
  destruct raw.
  - rewrite Hload. cbn [returned].
    eapply generate_from_unknown_context; eassumption.
  - cbn [returned].
    destruct (file_json file) as [doc|x]; [|discriminate]. simpl in *.
    rewrite Hload. simpl.
    eapply generate_from_unknown_context; eassumption.
Qed.

(** C3. With an integer seed, [generate] is a function of its arguments and
    of the content of the source file: whatever the entropy of the operating
    system is at the two calls, the same length, order, file, seed and flags
    give the same outcome, the returned string (or the exception) and the
    exported document alike. *)
Theorem generate_deterministic
  (length order : Z) (file : source_file) (seed : Z)
  (export raw ignore_case : bool) (entropy1 entropy2 : Z) :
  generate length order file (Some seed) export raw ignore_case entropy1
  = generate length order file (Some seed) export raw ignore_case entropy2.
Proof.
  unfold generate, random_seed.
  destruct raw; [destruct (create_automaton order (file_text file) ignore_case)|];
    reflexivity.
Qed.

(** C9, as amended. No parameter is checked and no [InvalidParameterError]
    exists. On a text of which something passes the filter: with
    [order <= 0] the priming loop does not run and the builder returns an
    automaton with at least one state (its first context is the empty
    string); and with [length <= 0], when the filter yields at least [order]
    values, [generate] returns the empty string. *)
Theorem nonpositive_parameters_accepted
  (length order : Z) (text : pystr) (seed : option Z)
  (export ignore_case : bool) (entropy : Z) :
  filtered text ignore_case <> [] ->
  (order <= 0 ->
   exists automaton : Automaton,
     create_automaton order text ignore_case = Ok automaton
     /\ automaton <> [])
  /\ (length <= 0 ->
      (Z.to_nat order <= List.length (filtered text ignore_case))%nat ->
      returned (generate length order (text_file text) seed export true
                  ignore_case entropy) = Ok []).
Proof.
  intros Hne. split.
  - intros Horder. apply create_automaton_total; [exact Hne | lia].
  - intros Hlen Horder.
    destruct (create_automaton_total order _ _ Hne Horder) as (automaton & E & Ha).
    unfold generate. simpl file_text. rewrite E. simpl.
    apply generate_from_nonpositive; assumption.
Qed.

(** C4, at the failing input: the text ["abc"], order 2, length 3. Whatever
    the seed and the generator, the third lookup, of the context ["ca"],
    fails and no string of three characters is returned. *)
Theorem generate_abc_fails
  (seed : option Z) (export : bool) (entropy : Z) :
  returned (generate 3 2 (text_file (str "abc")) seed export true true entropy)
  = Raise KeyError.
Proof.
  unfold generate. simpl file_text.
  assert (E : create_automaton 2 (str "abc") true = Ok automaton_abc)
    by reflexivity.
  rewrite E. cbn [returned].
  eapply generate_from_unknown_context
    with (j := 2%nat) (state := str "ab") (state' := str "ca").
  - reflexivity.
  - simpl. unfold Dict.item. simpl.
    rewrite choices_singleton by reflexivity. simpl.
    rewrite choices_singleton by reflexivity. simpl. reflexivity.
  - reflexivity.
  - lia.
Qed.

(** C6, at the failing input: a text that starts with a newline, order 1.
    The successor of ["b"] is the newline, which is no key of the automaton,
    and the fourth lookup of the walk fails, whatever the seed and the
    generator. *)
Theorem order_one_unknown_context
  (seed : option Z) (export : bool) (entropy : Z) :
  create_automaton 1 (NL :: str "ab") true = Ok automaton_nl_ab
  /\ Dict.get str_eqb automaton_nl_ab [NL] = None
  /\ returned (generate 4 1 (text_file (NL :: str "ab")) seed export true true
                 entropy)
     = Raise KeyError.
Proof.
  assert (E : create_automaton 1 (NL :: str "ab") true = Ok automaton_nl_ab)
    by reflexivity.
  split; [exact E|]. split; [reflexivity|].
  unfold generate. simpl file_text. rewrite E. cbn [returned].
  eapply generate_from_unknown_context
    with (j := 3%nat) (state := [SPACE]) (state' := [NL]).
  - reflexivity.
  - simpl. unfold Dict.item. simpl.
    rewrite choices_singleton by reflexivity. simpl.
    rewrite choices_singleton by reflexivity. simpl.
    rewrite choices_singleton by reflexivity. simpl. reflexivity.
  - reflexivity.
  - lia.
Qed.

(** With order 1, one-character yields and a closing value equal to the
    first yield, the automaton is closed. *)
Lemma create_automaton_order_one_closed
  (text : pystr) (ignore_case : bool) (y : pystr) (ys : list pystr)
  (automaton : Automaton) :
  filtered text ignore_case = y :: ys ->
  sentinel text ignore_case = Some y ->
  Forall single (y :: ys) ->
  create_automaton 1 text ignore_case = Ok automaton ->
  closed automaton.
Proof.
  intros Ey Es Hall. unfold create_automaton, next_character.
  rewrite Ey, Es. change (map Some (y :: ys) ++ [Some y])
    with (Some y :: (map Some ys ++ [Some y])).
  change (Z.to_nat 1) with 1%nat. cbn [prime bind app].
  replace (map Some ys ++ [Some y]) with (map Some (ys ++ [y]))
    by (rewrite map_app; reflexivity).
  intros H. apply bind_ok in H as (table & Htable & H).
  inversion Hall as [|? ? Hy Hys]; subst.
  assert (Hitems : Forall single (ys ++ [y])).
  { apply Forall_app. split; [exact Hys | constructor; [exact Hy | constructor]]. }
  destruct (@count_loop_order_one (ys ++ [y]) [] table y Hy Hitems Htable)
    as [Hkeys Hfollows].
  assert (Hok : counts_ok table).
  { eapply count_loop_ok; [|exact Htable]. constructor. }
  unfold normalize_automaton in H.
  destruct (normalize_loop_entries _ _ H) as [Hk Hin].
  assert (Hctx : removelast (y :: ys ++ [y]) = y :: ys).
  { change (y :: ys ++ [y]) with ((y :: ys) ++ [y]). apply removelast_last. }
  intros k e Hke.
  destruct (Hin k e Hke) as [[]|(tr & Htr & Hn)].
  assert (Htrok : transitions_ok tr).
  { unfold counts_ok in Hok. rewrite Forall_forall in Hok. exact (Hok _ Htr). }
  destruct (normalize_entry_spec Htrok) as (e' & Ee' & _ & Hsucc & Hlen & Hpos & _).
  assert (e' = e) by congruence. subst e'.
  assert (Hktable : In k (Dict.keys table)).
  { unfold Dict.keys. apply in_map_iff. exists (k, tr). auto. }
  split; [|split; [|split; [|split]]].
  - apply Hkeys in Hktable. destruct Hktable as [[]|Hktable].
    rewrite Hctx in Hktable. rewrite Forall_forall in Hall. apply Hall, Hktable.
  - rewrite Hsucc. destruct Htrok as [Hne _]. destruct tr; [contradiction | discriminate].
  - exact Hlen.
  - exact Hpos.
  - intros c Hc. rewrite Hsucc in Hc.
    apply Hk. right. apply Hkeys. right. rewrite Hctx.
    destruct (Hfollows c) as [(k0 & tr0 & [] & _)|Hitem].
    + exists k, tr. auto.
    + apply in_app_or in Hitem. destruct Hitem as [Hitem|[<-|[]]];
        [right; exact Hitem | left; reflexivity].
Qed.

(** With order 1, when the closing value of the filter is its first yield
    and every yield is one character, [generate] returns exactly [length]
    characters for every [length >= 0]. *)
Lemma generate_order_one_total
  (length : Z) (text : pystr) (seed : option Z) (export ignore_case : bool)
  (entropy : Z) (y : pystr) (ys : list pystr) :
  filtered text ignore_case = y :: ys ->
  sentinel text ignore_case = Some y ->
  Forall single (y :: ys) ->
  0 <= length ->
  exists s : pystr,
    returned (generate length 1 (text_file text) seed export true ignore_case
                entropy) = Ok s
    /\ Z.of_nat (List.length s) = length.
Proof.
  intros Ey Es Hall Hlen.
  assert (Hne : filtered text ignore_case <> []) by (rewrite Ey; discriminate).
  destruct (create_automaton_total 1 _ _ Hne) as (automaton & E & Ha).
  { rewrite Ey. simpl. lia. }
  unfold generate. cbn [file_text text_file]. rewrite E. cbn [returned].
  apply generate_from_closed; [|exact Ha | exact Hlen].
  eapply create_automaton_order_one_closed; eassumption.
Qed.

(** X26. In particular, when the case is kept and the text does not start with
    a newline (the closing value is not the newline), order 1 gives exactly
    [length] characters: the unknown context of order 1 comes from the closing
    value alone. *)
Lemma generate_order_one_kept_case
  (length : Z) (text : pystr) (seed : option Z) (export : bool) (entropy : Z) :
  filtered text true <> [] ->
  sentinel text true <> Some [NL] ->
  0 <= length ->
  exists s : pystr,
    returned (generate length 1 (text_file text) seed export true true entropy)
    = Ok s
    /\ Z.of_nat (List.length s) = length.
Proof.
  intros Hne Hs Hlen.
  destruct (filtered text true) as [|y ys] eqn:Ey; [contradiction|].
  destruct (sentinel_first _ _ Ey) as [Es|[Es _]]; [|contradiction].
  eapply generate_order_one_total; try eassumption.
  rewrite <- Ey. apply filtered_singles.
Qed.

End GenerateFacts.

(** The theorem at the text ["abc"], order 2, length 3, seed 0: two turns
    reach the context ["ca"]. *)
Lemma unknown_context_raises_key_error_witness :
  returned (generate 3 2 (text_file (str "abc")) (Some 0) false true false 0)
  = Raise KeyError.
Proof.
  apply (@unknown_context_raises_key_error AsciiLowering Lcg 3 2
           (text_file (str "abc")) (Some 0) false true false 0
           automaton_abc (str "ab") (str "ca")
           (snd (random (snd (random (seed_rng 0))))) 2).
  - reflexivity.
  - reflexivity.
  - reflexivity.
  - reflexivity.
  - lia.
Defined.

(** C5, as stated, fails: on the text ["abc"] with order 2 and length 3 the
    call ends with the unhandled [KeyError] of the lookup of ["ca"]. *)
Lemma unknown_context_is_unhandled :
  create_automaton 2 (str "abc") false = Ok automaton_abc
  /\ returned (generate 3 2 (text_file (str "abc")) (Some 7) true true false 1)
     = Raise KeyError.
Proof. split; reflexivity. Qed.

(** C9, as stated, fails: order 0 and length -1 on the text ["ab"] build a
    three-state automaton and return the empty string. *)
Lemma nonpositive_parameters_return :
  is_ok (create_automaton 0 (str "ab") false) = true
  /\ returned (generate (-1) 0 (text_file (str "ab")) (Some 0) false true false 0)
     = Ok [].
Proof. split; reflexivity. Qed.

(** The theorem at the text ["ab"] with order 0 and length 0. *)
Lemma nonpositive_parameters_accepted_witness :
  (exists automaton : Automaton,
     create_automaton 0 (str "ab") false = Ok automaton /\ automaton <> [])
  /\ returned (generate 0 0 (text_file (str "ab")) None false true false 0)
     = Ok [].
Proof.
  destruct (@nonpositive_parameters_accepted AsciiLowering Lcg 0 0 (str "ab")
              None false false 0) as [H1 H2].
  - discriminate.
  - split; [apply H1; lia | apply H2; simpl; lia].
Defined.

(** Without a seed the outcome follows the entropy: the determinism of C3
    is that of seeded calls. *)
Example generate_unseeded_depends_on_entropy :
  returned (generate 8 1 (text_file (str "aab ac")) None false true false 7)
  = Ok (str "aaacab a")
  /\ returned (generate 8 1 (text_file (str "aab ac")) None false true false 8)
     = Ok (str "ab acaca").
Proof. split; vm_compute; reflexivity. Qed.

(** ** Persistence *)

Lemma mapM_as_string (l : list pystr) : mapM as_string (map JString l) = Ok l.
Proof. induction l as [|s l IH]; simpl; [|rewrite IH]; reflexivity. Qed.

Lemma mapM_as_number (l : list float) : mapM as_number (map JNumber l) = Ok l.
Proof. induction l as [|x l IH]; simpl; [|rewrite IH]; reflexivity. Qed.

Lemma entry_of_to_json (e : entry) :
  entry_of_json (entry_to_json e) = Ok (as_list e).
Proof.
  unfold entry_of_json, entry_to_json.
  rewrite mapM_as_string. simpl. rewrite mapM_as_number. reflexivity.
Qed.

Lemma set_fresh (res : Automaton) (k : pystr) (e : entry) :
  ~ In k (Dict.keys res) -> Dict.set str_eqb k e res = res ++ [(k, e)].
Proof.
  intros H. unfold Dict.set. apply upsert_keys_fresh.
  apply get_None_keys; [exact str_eqb_eq | exact H].
Qed.

Lemma load_members_saved (automaton : Automaton) :
  forall res : Automaton,
  NoDup (Dict.keys res ++ Dict.keys automaton) ->
  load_members res
    (map (fun kv => (fst kv, entry_to_json (snd kv))) automaton)
  = Ok (res ++ reloaded automaton).
Proof.
  induction automaton as [|[k e] automaton IH]; intros res Hnd;
    cbn [map load_members fst snd].
  - unfold reloaded. simpl. rewrite app_nil_r. reflexivity.
  - rewrite entry_of_to_json. cbn [bind].
    rewrite set_fresh.
    + rewrite IH.
      * rewrite <- app_assoc. reflexivity.
      * unfold Dict.keys in *. rewrite map_app, <- app_assoc. exact Hnd.
    + simpl in Hnd. apply NoDup_remove_2 in Hnd.
      intros Hin. apply Hnd, in_or_app. left. exact Hin.
Qed.

(** A saved automaton that is loaded again is the same: its entries are
    lists already. *)
Lemma reloaded_lists (automaton : Automaton) :
  Forall (fun kv => shape (snd kv) = List) automaton ->
  reloaded automaton = automaton.
Proof.
  unfold reloaded. induction 1 as [|[k [s succs ws]] automaton Hs _ IH]; simpl.
  - reflexivity.
  - simpl in Hs. subst s. rewrite IH. reflexivity.
Qed.

(** C2, as amended. For every automaton held in memory (a dict: its keys
    are distinct), loading what [save_automaton] wrote returns the same keys
    in the same order, each with the same successor sequence and the same
    probability values, every entry being a two-element list where the
    automaton held a tuple. *)
Theorem import_save_automaton (automaton : Automaton) :
  NoDup (Dict.keys automaton) ->
  import_automaton (save_automaton automaton) = Ok (reloaded automaton).
Proof.
  intros Hnd. unfold import_automaton, save_automaton.
  apply (load_members_saved automaton []). exact Hnd.
Qed.

(** The theorem at the automaton of the text ["abc"], order 2. *)
Lemma import_save_automaton_witness :
  import_automaton (save_automaton automaton_abc) = Ok automaton_abc_loaded.
Proof.
  apply (import_save_automaton automaton_abc).
  repeat constructor; simpl; intuition discriminate.
Defined.

(** C2, as stated, fails: the automaton of the text ["abc"] equals itself,
    and what is loaded back from its saved form does not equal it, a list
    never being equal to a tuple. *)
Lemma loaded_automaton_differs :
  py_eq automaton_abc automaton_abc = true
  /\ import_automaton (save_automaton automaton_abc) = Ok automaton_abc_loaded
  /\ py_eq automaton_abc_loaded automaton_abc = false.
Proof. repeat split. Qed.

(** * Further properties *)

(** ** The character filter *)

Section FilterMore.
Context {L : Lowering}.

Lemma filter_loop_app (ignore_case : bool) (t1 t2 : pystr) :
  forall st : filter_state,
  filter_loop ignore_case st (t1 ++ t2)
  = (fst (filter_loop ignore_case (fst (filter_loop ignore_case st t1)) t2),
     snd (filter_loop ignore_case st t1)
     ++ snd (filter_loop ignore_case (fst (filter_loop ignore_case st t1)) t2)).
Proof.
  induction t1 as [|c t1 IH]; intros st.
  - simpl. destruct (filter_loop ignore_case st t2). reflexivity.
  - simpl. destruct (filter_step ignore_case st c) as [st1 ys].
    rewrite IH.
    destruct (filter_loop ignore_case st1 t1) as [st2 zs]. simpl.
    rewrite app_assoc. reflexivity.
Qed.

Lemma filter_step_dropped (ignore_case : bool) (st : filter_state) (c : char) :
  dropped c = true -> filter_step ignore_case st c = (st, []).
Proof.
  intros Hd. unfold filter_step.
  rewrite char_in_non_printable, Hd, orb_true_r.
  rewrite (dropped_not_newline c Hd). reflexivity.
Qed.

Lemma filter_loop_kept (ignore_case : bool) (text : pystr) :
  forall st : filter_state,
  filter_loop ignore_case st (List.filter kept text)
  = filter_loop ignore_case st text.
Proof.
  induction text as [|c text IH]; intros st; [reflexivity|].
  cbn [List.filter]. unfold kept at 1. destruct (dropped c) eqn:Hd.
  - simpl negb. cbv iota. cbn [filter_loop].
    rewrite (filter_step_dropped ignore_case st c Hd), IH.
    destruct (filter_loop ignore_case st text). reflexivity.
  - simpl negb. cbv iota. cbn [filter_loop].
    destruct (filter_step ignore_case st c) as [st1 ys]. rewrite IH.
    reflexivity.
Qed.

(** X1. Tabs, carriage returns, vertical tabs and form feeds are invisible:
    the generator yields the same values, the closing one included, on the
    text without them. *)
Theorem next_character_without_dropped (text : pystr) (ignore_case : bool) :
  next_character (List.filter kept text) ignore_case
  = next_character text ignore_case.
Proof.
  unfold next_character, filtered, sentinel.
  rewrite filter_loop_kept. reflexivity.
Qed.

Lemma filter_step_newline_twice (ignore_case : bool) (st : filter_state) :
  filter_step ignore_case (fst (filter_step ignore_case st NL)) NL
  = (fst (filter_step ignore_case st NL), []).
Proof.
  unfold filter_step. change (char_in NL non_printable) with true.
  cbn [negb]. rewrite N.eqb_refl. cbn [andb].
  destruct (opt_str_eqb (last_char st) [NL]) eqn:E; cbn [negb fst].
  - rewrite E. reflexivity.
  - simpl. reflexivity.
Qed.

Lemma filter_loop_newline_twice (ignore_case : bool) (text : pystr)
  (st : filter_state) :
  filter_loop ignore_case st (NL :: NL :: text)
  = filter_loop ignore_case st (NL :: text).
Proof.
  cbn [filter_loop].
  pose proof (filter_step_newline_twice ignore_case st) as H.
  destruct (filter_step ignore_case st NL) as [st1 ys]. cbn [fst] in H.
  rewrite H. destruct (filter_loop ignore_case st1 text) as [st2 zs].
  reflexivity.
Qed.

(** X2. Blank lines collapse: a newline right after a newline changes nothing
    of what the generator yields, wherever it stands in the text. *)
Theorem next_character_blank_line (before after : pystr) (ignore_case : bool) :
  next_character (before ++ NL :: NL :: after) ignore_case
  = next_character (before ++ NL :: after) ignore_case.
Proof.
  unfold next_character, filtered, sentinel.
  rewrite !filter_loop_app, filter_loop_newline_twice. reflexivity.
Qed.

(** X3. The generator is a stream: what it yields on a text starts with what
    it yields, the closing value apart, on any prefix of the text. *)
Theorem filtered_prefix (t1 t2 : pystr) (ignore_case : bool) :
  exists rest : list pystr,
    filtered (t1 ++ t2) ignore_case = filtered t1 ignore_case ++ rest
    /\ (List.length rest <= List.length t2)%nat.
Proof.
  unfold filtered. rewrite filter_loop_app. cbn [snd].
  eexists. split; [reflexivity|].
  generalize (fst (filter_loop ignore_case init_state t1)).
  induction t2 as [|c t2 IH]; intros st; [simpl; lia|].
  cbn [filter_loop].
  assert (Hstep : (List.length (snd (filter_step ignore_case st c)) <= 1)%nat).
  { unfold filter_step. destruct (negb _); [simpl; lia|].
    destruct (_ && _)%bool; simpl; lia. }
  destruct (filter_step ignore_case st c) as [st1 ys]. specialize (IH st1).
  destruct (filter_loop ignore_case st1 t2) as [st2 zs]. cbn [snd] in *.
  rewrite length_app. simpl. lia.
Qed.

Lemma described_yields (ignore_case : bool) (text : pystr) :
  forall before : pystr,
  Forall (yield_of ignore_case text) (described ignore_case before text).
Proof.
  induction text as [|c text IH]; intros before; [constructor|].
  cbn [described]. apply Forall_app. split.
  - unfold emitted. destruct (dropped c) eqn:Hd; [constructor|].
    destruct (N.eqb c NL) eqn:En.
    + apply N.eqb_eq in En. subst c.
      destruct (after_newline before); [constructor|].
      constructor; [|constructor].
      left. split; [reflexivity | left; reflexivity].
    + constructor; [|constructor]. right. exists c.
      split; [left; reflexivity|].
      split; [rewrite char_in_non_printable, En, Hd; reflexivity | reflexivity].
  - eapply Forall_impl; [|apply IH].
    intros y [[-> Hin]|(c' & Hin & Hc' & ->)].
    + left. split; [reflexivity | right; exact Hin].
    + right. exists c'. split; [right; exact Hin | auto].
Qed.

(** X4. Every value yielded before the closing one is a space put for a
    newline of the text, or a character of the text that is none of tab,
    newline, carriage return, vertical tab and form feed, lowered unless the
    case is kept. *)
Theorem filtered_yields (text : pystr) (ignore_case : bool) :
  Forall (yield_of ignore_case text) (filtered text ignore_case).
Proof.
  unfold filtered.
  erewrite filter_loop_described with (before := []) by reflexivity.
  apply described_yields.
Qed.

Lemma filter_loop_first_some (ignore_case : bool) (text : pystr)
  (st : filter_state) (x : pystr) :
  first_char st = Some x ->
  first_char (fst (filter_loop ignore_case st text)) = Some x.
Proof.
  intros H. pose proof (filter_loop_first ignore_case text st) as F.
  rewrite H in F. exact F.
Qed.

Lemma filter_loop_hd_first (ignore_case : bool) (text : pystr) :
  forall st : filter_state,
  first_char st = None -> last_char st = None ->
  first_char (fst (filter_loop ignore_case st text))
  = match find kept text with
    | None => None
    | Some c => if N.eqb c NL then Some [NL] else Some (passed ignore_case c)
    end
  /\ hd_error (snd (filter_loop ignore_case st text))
     = match find kept text with
       | None => None
       | Some c =>
           if N.eqb c NL then Some [SPACE] else Some (passed ignore_case c)
       end.
Proof.
  induction text as [|c text IH]; intros st Hf Hl.
  - simpl. auto.
  - cbn [filter_loop find]. unfold kept at 1 3.
    destruct (dropped c) eqn:Hd; cbn [negb].
    + rewrite (filter_step_dropped ignore_case st c Hd).
      specialize (IH st Hf Hl).
      destruct (filter_loop ignore_case st text) as [st2 zs]. exact IH.
    + unfold filter_step. rewrite char_in_non_printable, Hd, orb_false_r.
      rewrite Hf, Hl. cbn [or_else opt_str_eqb].
      destruct (N.eqb c NL) eqn:En; cbn [negb andb].
      * apply N.eqb_eq in En. subst c.
        match goal with |- context [filter_loop _ ?s text] =>
          pose proof (@filter_loop_first_some ignore_case text s [NL] eq_refl)
            as Hs end.
        destruct (filter_loop ignore_case _ text) as [st2 zs].
        cbn [fst snd] in *. split; [exact Hs | reflexivity].
      * match goal with |- context [filter_loop _ ?s text] =>
          pose proof (@filter_loop_first_some ignore_case text s
                        (passed ignore_case c) eq_refl) as Hs end.
        destruct (filter_loop ignore_case _ text) as [st2 zs].
        cbn [fst snd] in *. split; [exact Hs | reflexivity].
Qed.

(** X5. The closing value and the first value yielded, from the text alone:
    both are decided by the first character that is not dropped. When it is a
    newline the first yield is a space and the closing value the newline;
    otherwise both are that character, lowered unless the case is kept; and
    when there is none, nothing is yielded and the closing value is [None]. *)
Theorem closing_value (text : pystr) (ignore_case : bool) :
  sentinel text ignore_case
  = match find kept text with
    | None => None
    | Some c => if N.eqb c NL then Some [NL] else Some (passed ignore_case c)
    end
  /\ hd_error (filtered text ignore_case)
     = match find kept text with
       | None => None
       | Some c =>
           if N.eqb c NL then Some [SPACE] else Some (passed ignore_case c)
       end.
Proof.
  unfold sentinel, filtered. apply filter_loop_hd_first; reflexivity.
Qed.

End FilterMore.

(** ** Dictionaries, looked up *)

Section DictLookup.
Variables K V : Type.
Variable eqb : K -> K -> bool.
Hypothesis eqb_eq : forall a b, eqb a b = true <-> a = b.

Lemma eqb_same (a : K) : eqb a a = true.
Proof. apply eqb_eq. reflexivity. Qed.

Lemma get_upsert (k k' : K) (f : V -> V) (dflt : V) (d : Dict.t K V) :
  Dict.get eqb (Dict.upsert eqb k f dflt d) k'
  = if eqb k' k
    then Some (f (match Dict.get eqb d k with Some v => v | None => dflt end))
    else Dict.get eqb d k'.
Proof.
  induction d as [|[k0 v0] d IH]; simpl.
  - destruct (eqb k' k); reflexivity.
  - destruct (eqb k k0) eqn:E; simpl.
    + apply eqb_eq in E. subst k0. destruct (eqb k' k); reflexivity.
    + rewrite IH. destruct (eqb k' k0) eqn:E'; [|reflexivity].
      apply eqb_eq in E'. subst k0.
      destruct (eqb k' k) eqn:E''; [|reflexivity].
      apply eqb_eq in E''. subst k'. rewrite eqb_same in E. discriminate.
Qed.

Lemma get_NoDup_In (d : Dict.t K V) (k : K) (v : V) :
  NoDup (Dict.keys d) -> In (k, v) d -> Dict.get eqb d k = Some v.
Proof.
  induction d as [|[k0 v0] d IH]; simpl; intros Hnd Hin; [contradiction|].
  inversion Hnd as [|? ? Hk0 Hd]; subst.
  destruct Hin as [H|H].
  - injection H as -> ->. rewrite eqb_same. reflexivity.
  - destruct (eqb k k0) eqn:E.
    + apply eqb_eq in E. subst k0. exfalso. apply Hk0.
      unfold Dict.keys. apply in_map_iff. exists (k, v). auto.
    + apply IH; assumption.
Qed.

Lemma first_key_upsert (k : K) (f : V -> V) (dflt : V) (d : Dict.t K V) :
  d <> [] ->
  Dict.first_key (Dict.upsert eqb k f dflt d) = Dict.first_key d.
Proof.
  destruct d as [|[k0 v0] d]; [contradiction|]. intros _. simpl.
  destruct (eqb k k0); reflexivity.
Qed.

End DictLookup.

(** ** The counts of the builder *)

Lemma sumZ_bumped (c : pystr) (tr : Dict.t pystr Z) :
  sumZ (Dict.values (Dict.upsert str_eqb c Z.succ 0 tr))
  = sumZ (Dict.values tr) + 1.
Proof.
  unfold Dict.values.
  induction tr as [|[c0 v0] tr IH]; cbn [Dict.upsert map snd].
  - reflexivity.
  - destruct (str_eqb c c0); cbn [map snd].
    + rewrite !sumZ_cons. lia.
    + rewrite !sumZ_cons, IH. lia.
Qed.

Lemma get_bump (automaton : counts) (curr c k : pystr) :
  Dict.get str_eqb (bump automaton curr c) k
  = if str_eqb k curr
    then Some (Dict.upsert str_eqb c Z.succ 0
                 (match Dict.get str_eqb automaton curr with
                  | Some tr => tr
                  | None => []
                  end))
    else Dict.get str_eqb automaton k.
Proof. unfold bump. apply get_upsert. exact str_eqb_eq. Qed.

Lemma count_of_bump (automaton : counts) (curr c k x : pystr) :
  count_of (bump automaton curr c) k x
  = count_of automaton k x
    + (if str_eqb k curr && str_eqb x c then 1 else 0).
Proof.
  unfold count_of. rewrite get_bump.
  destruct (str_eqb k curr) eqn:Ek; [|simpl; lia].
  apply str_eqb_eq in Ek. subst k.
  rewrite get_upsert by exact str_eqb_eq. cbn [andb].
  destruct (Dict.get str_eqb automaton curr) as [tr|];
    destruct (str_eqb x c) eqn:Ex.
  - apply str_eqb_eq in Ex. subst x.
    destruct (Dict.get str_eqb tr c); lia.
  - lia.
  - reflexivity.
  - reflexivity.
Qed.

Lemma row_total_bump (automaton : counts) (curr c k : pystr) :
  row_total (bump automaton curr c) k
  = row_total automaton k + (if str_eqb k curr then 1 else 0).
Proof.
  unfold row_total. rewrite get_bump.
  destruct (str_eqb k curr) eqn:Ek;
    [|destruct (Dict.get str_eqb automaton k); lia].
  apply str_eqb_eq in Ek. subst k. rewrite sumZ_bumped.
  destruct (Dict.get str_eqb automaton curr); reflexivity.
Qed.

Lemma visits_cons (k : pystr) (p : pystr * pystr) (l : list (pystr * pystr)) :
  visits k (p :: l) = (if str_eqb k (fst p) then 1 else 0) + visits k l.
Proof.
  unfold visits. cbn [List.filter].
  destruct (str_eqb k (fst p)); cbn [List.length]; lia.
Qed.

Lemma occurrences_cons (k c : pystr) (p : pystr * pystr)
  (l : list (pystr * pystr)) :
  occurrences k c (p :: l)
  = (if str_eqb k (fst p) && str_eqb c (snd p) then 1 else 0)
    + occurrences k c l.
Proof.
  unfold occurrences. cbn [List.filter].
  destruct (str_eqb k (fst p) && str_eqb c (snd p))%bool;
    cbn [List.length]; lia.
Qed.

(** The table counts what the loop goes through. *)
Lemma count_loop_counts (items : list pystr) :
  forall (automaton automaton' : counts) (curr : pystr),
  count_loop automaton curr (map Some items) = Ok automaton' ->
  forall k x : pystr,
  count_of automaton' k x
  = count_of automaton k x + occurrences k x (transitions curr items)
  /\ row_total automaton' k
     = row_total automaton k + visits k (transitions curr items).
Proof.
  induction items as [|c items IH]; intros automaton automaton' curr H k x.
  - simpl in H. injection H as <-. unfold occurrences, visits. simpl. lia.
  - cbn [map count_loop] in H. destruct (IH _ _ _ H k x) as [H1 H2].
    cbn [transitions]. rewrite occurrences_cons, visits_cons. cbn [fst snd].
    rewrite H1, H2, count_of_bump, row_total_bump. lia.
Qed.

Lemma bump_rows_NoDup (automaton : counts) (curr c : pystr) :
  Forall (fun kv => NoDup (Dict.keys (snd kv))) automaton ->
  Forall (fun kv => NoDup (Dict.keys (snd kv))) (bump automaton curr c).
Proof.
  intros H. unfold bump.
  apply upsert_Forall
    with (P := fun tr : Dict.t pystr Z => NoDup (Dict.keys tr)).
  - intros tr Htr. apply upsert_NoDup; [exact str_eqb_eq | exact Htr].
  - simpl. constructor; [intros []|constructor].
  - exact H.
Qed.

Lemma count_loop_rows_NoDup (gen : list (option pystr)) :
  forall (automaton automaton' : counts) (curr : pystr),
  Forall (fun kv => NoDup (Dict.keys (snd kv))) automaton ->
  count_loop automaton curr gen = Ok automaton' ->
  Forall (fun kv => NoDup (Dict.keys (snd kv))) automaton'.
Proof.
  induction gen as [|[c|] gen IH]; intros automaton automaton' curr Hnd; simpl.
  - intros H. injection H as <-. exact Hnd.
  - apply IH, bump_rows_NoDup, Hnd.
  - discriminate.
Qed.

(** ** Normalisation, row by row *)

Lemma mapM_truediv_values (total : Z) (vs : list Z) :
  total <> 0 ->
  mapM (fun v => Float.truediv v total) vs
  = Ok (map (fun v => Float.RN (inject_Z v / inject_Z total)) vs).
Proof.
  intros Ht. induction vs as [|v vs IH]; [reflexivity|].
  cbn [mapM map]. rewrite IH. unfold Float.truediv.
  destruct (Z.eqb_spec total 0); [contradiction | reflexivity].
Qed.

Lemma normalize_entry_normalized (transitions : Dict.t pystr Z) :
  sumZ (Dict.values transitions) <> 0 ->
  normalize_entry transitions = Ok (normalized transitions).
Proof.
  intros H. unfold normalize_entry. rewrite (mapM_truediv_values _ H).
  reflexivity.
Qed.

Lemma normalize_entry_divisible (transitions : Dict.t pystr Z) :
  divisible transitions ->
  normalize_entry transitions = Ok (normalized transitions).
Proof.
  intros [->|H]; [reflexivity | apply normalize_entry_normalized, H].
Qed.

Lemma normalize_entry_zero (transitions : Dict.t pystr Z) :
  ~ divisible transitions ->
  normalize_entry transitions = Raise ZeroDivisionError.
Proof.
  intros H. unfold normalize_entry.
  destruct transitions as [|[c v] tr].
  - exfalso. apply H. left. reflexivity.
  - assert (E : sumZ (Dict.values ((c, v) :: tr)) = 0).
    { destruct (Z.eq_dec (sumZ (Dict.values ((c, v) :: tr))) 0) as [E|E];
        [exact E|]. exfalso. apply H. right. exact E. }
    rewrite E. reflexivity.
Qed.

Lemma normalize_loop_rows (items : counts) :
  forall res : Automaton,
  NoDup (Dict.keys res ++ Dict.keys items) ->
  Forall (fun kv => divisible (snd kv)) items ->
  normalize_loop res items
  = Ok (res ++ map (fun kv => (fst kv, normalized (snd kv))) items).
Proof.
  induction items as [|[state tr] items IH]; intros res Hnd Hall.
  - simpl. rewrite app_nil_r. reflexivity.
  - inversion Hall as [|? ? Htr Hitems]; subst. cbn [normalize_loop].
    simpl in Htr. rewrite (normalize_entry_divisible Htr). cbn [bind].
    rewrite set_fresh.
    + rewrite IH; [| |exact Hitems].
      * rewrite <- app_assoc. reflexivity.
      * unfold Dict.keys in *. rewrite map_app, <- app_assoc. exact Hnd.
    + simpl in Hnd. apply NoDup_remove_2 in Hnd.
      intros Hin. apply Hnd, in_or_app. left. exact Hin.
Qed.

Lemma normalize_loop_zero (items : counts) :
  forall res : Automaton,
  Exists (fun kv => ~ divisible (snd kv)) items ->
  normalize_loop res items = Raise ZeroDivisionError.
Proof.
  induction items as [|[state tr] items IH]; intros res Hex.
  - inversion Hex.
  - cbn [normalize_loop].
    destruct (normalize_entry tr) as [e|x] eqn:E.
    + cbn [bind]. apply IH. inversion Hex as [? ? H|? ? H]; subst; [|exact H].
      simpl in H. rewrite (normalize_entry_zero H) in E. discriminate.
    + cbn [bind]. unfold normalize_entry in E.
      destruct (mapM _ _) eqn:Em; [discriminate|]. cbn [bind] in E.
      injection E as <-. clear - Em. revert e Em.
      generalize (sumZ (Dict.values tr)) as total.
      intros total. induction (Dict.values tr) as [|v vs IHv]; intros e Em.
      * discriminate.
      * cbn [mapM] in Em. unfold Float.truediv at 1 in Em.
        destruct (total =? 0); cbn [bind] in Em; [congruence|].
        destruct (mapM _ vs) eqn:Em'; cbn [bind] in Em; [discriminate|].
        injection Em as <-. eapply IHv. reflexivity.
Qed.

Lemma get_normalized (items : counts) (k : pystr) :
  Dict.get str_eqb (map (fun kv => (fst kv, normalized (snd kv))) items) k
  = option_map normalized (Dict.get str_eqb items k).
Proof.
  induction items as [|[k0 tr] items IH]; simpl; [reflexivity|].
  destruct (str_eqb k k0); [reflexivity | exact IH].
Qed.

Lemma counts_ok_divisible (automaton : counts) :
  counts_ok automaton -> Forall (fun kv => divisible (snd kv)) automaton.
Proof.
  unfold counts_ok. apply Forall_impl. intros [k tr] [Hne Hpos]. simpl in *.
  right. assert (Hv : Dict.values tr <> [])
    by (destruct tr; [contradiction | discriminate]).
  pose proof (sumZ_pos Hv Hpos). lia.
Qed.

(** ** The builder, from the text to the automaton *)

Section BuilderMore.
Context {L : Lowering}.

Lemma next_character_yields (text : pystr) (ignore_case : bool) :
  filtered text ignore_case <> [] ->
  next_character text ignore_case = map Some (yields text ignore_case).
Proof.
  intros H. destruct (sentinel_some _ _ H) as [s Hs].
  unfold next_character, yields. rewrite Hs, map_app. reflexivity.
Qed.

Lemma yields_length (text : pystr) (ignore_case : bool) :
  filtered text ignore_case <> [] ->
  List.length (yields text ignore_case)
  = S (List.length (filtered text ignore_case)).
Proof.
  intros H. destruct (sentinel_some _ _ H) as [s Hs].
  unfold yields. rewrite Hs, length_app. simpl. lia.
Qed.

Lemma create_automaton_nothing (order : Z) (ignore_case : bool) (text : pystr) :
  filtered text ignore_case = [] ->
  create_automaton order text ignore_case = Raise TypeError.
Proof.
  intros H. unfold create_automaton, next_character.
  rewrite H, (sentinel_none _ _ H). simpl.
  destruct (Z.to_nat order); reflexivity.
Qed.

(** What a successful call went through: the table of the counts of the
    observed pairs, then normalised. *)
Lemma create_automaton_inv
  (order : Z) (text : pystr) (ignore_case : bool) (automaton : Automaton) :
  create_automaton order text ignore_case = Ok automaton ->
  filtered text ignore_case <> []
  /\ (Z.to_nat order <= S (List.length (filtered text ignore_case)))%nat
  /\ exists table : counts,
       count_loop []
         (concat (firstn (Z.to_nat order) (yields text ignore_case)))
         (map Some (skipn (Z.to_nat order) (yields text ignore_case)))
       = Ok table
       /\ normalize_automaton table = Ok automaton.
Proof.
  intros H.
  assert (Hne : filtered text ignore_case <> []).
  { intros E. rewrite (create_automaton_nothing order ignore_case text E) in H.
    discriminate. }
  split; [exact Hne|].
  unfold create_automaton in H.
  rewrite (next_character_yields _ _ Hne), prime_somes in H.
  rewrite (yields_length _ _ Hne) in H.
  destruct (Nat.leb_spec (Z.to_nat order)
              (S (List.length (filtered text ignore_case)))) as [Hle|Hgt];
    [|discriminate].
  split; [exact Hle|]. cbn [bind app] in H.
  apply bind_ok in H as (table & Htable & H).
  exists table. split; assumption.
Qed.

Lemma create_automaton_table
  (order : Z) (text : pystr) (ignore_case : bool) (automaton : Automaton) :
  create_automaton order text ignore_case = Ok automaton ->
  exists table : counts,
    count_loop []
      (concat (firstn (Z.to_nat order) (yields text ignore_case)))
      (map Some (skipn (Z.to_nat order) (yields text ignore_case)))
    = Ok table
    /\ automaton = map (fun kv => (fst kv, normalized (snd kv))) table
    /\ counts_ok table
    /\ NoDup (Dict.keys table)
    /\ Forall (fun kv => NoDup (Dict.keys (snd kv))) table
    /\ forall k x : pystr,
         count_of table k x = occurrences k x (observed order text ignore_case)
         /\ row_total table k = visits k (observed order text ignore_case).
Proof.
  intros H.
  destruct (create_automaton_inv _ _ _ H) as (_ & _ & table & Ht & Hn).
  exists table.
  assert (Hok : counts_ok table).
  { eapply count_loop_ok; [|exact Ht]. constructor. }
  assert (Hnd : NoDup (Dict.keys table)).
  { eapply count_loop_NoDup; [|exact Ht]. constructor. }
  assert (Hrows : Forall (fun kv => NoDup (Dict.keys (snd kv))) table).
  { eapply count_loop_rows_NoDup; [|exact Ht]. constructor. }
  unfold normalize_automaton in Hn.
  rewrite normalize_loop_rows in Hn;
    [|exact Hnd | apply counts_ok_divisible, Hok].
  injection Hn as <-.
  split; [exact Ht|].
  repeat split; try assumption.
  - destruct (count_loop_counts _ _ _ Ht k x) as [H1 _]. exact H1.
  - destruct (count_loop_counts _ _ _ Ht k x) as [_ H2]. exact H2.
Qed.

End BuilderMore.

(** ** The automaton of a text *)

Lemma transitions_In (items : list pystr) :
  forall curr k c : pystr,
  In (k, c) (transitions curr items) -> In c items.
Proof.
  induction items as [|c0 items IH]; intros curr k c; simpl; [tauto|].
  intros [H|H]; [injection H as _ H; auto | right; eapply IH; exact H].
Qed.

Lemma occurrences_In (k c : pystr) (l : list (pystr * pystr)) :
  0 < occurrences k c l <-> In (k, c) l.
Proof.
  induction l as [|[k0 c0] l IH].
  - unfold occurrences. simpl. split; [lia | tauto].
  - rewrite occurrences_cons. cbn [fst snd].
    assert (Hn : 0 <= occurrences k c l) by (unfold occurrences; lia).
    destruct (str_eqb k k0 && str_eqb c c0)%bool eqn:E.
    + apply andb_true_iff in E as [E1 E2].
      apply str_eqb_eq in E1. apply str_eqb_eq in E2. subst.
      split; [left; reflexivity | lia].
    + split.
      * intros H. right. apply IH. lia.
      * intros [H|H].
        -- injection H as -> ->. rewrite !str_eqb_refl in E. discriminate.
        -- apply IH in H. lia.
Qed.

Lemma visits_In (k : pystr) (l : list (pystr * pystr)) :
  0 < visits k l <-> exists c : pystr, In (k, c) l.
Proof.
  induction l as [|[k0 c0] l IH].
  - unfold visits. simpl. split; [lia | intros [c []]].
  - rewrite visits_cons. cbn [fst].
    assert (Hn : 0 <= visits k l) by (unfold visits; lia).
    destruct (str_eqb k k0) eqn:E.
    + apply str_eqb_eq in E. subst.
      split; [exists c0; left; reflexivity | lia].
    + split.
      * intros H. destruct IH as [IH _]. destruct IH as [c Hc]; [lia|].
        exists c. right. exact Hc.
      * intros [c [H|H]].
        -- injection H as -> ->. rewrite str_eqb_refl in E. discriminate.
        -- destruct IH as [_ IH]. specialize (IH (ex_intro _ c H)). lia.
Qed.

Lemma keys_normalized (table : counts) :
  Dict.keys (map (fun kv => (fst kv, normalized (snd kv))) table)
  = Dict.keys table.
Proof. unfold Dict.keys. rewrite map_map. reflexivity. Qed.

Lemma row_total_keys (table : counts) (k : pystr) :
  counts_ok table ->
  (In k (Dict.keys table) <-> 0 < row_total table k).
Proof.
  intros Hok. unfold row_total. split.
  - intros H. apply keys_get with (eqb := str_eqb) in H; [|exact str_eqb_eq].
    destruct H as (tr & -> & Hin).
    unfold counts_ok in Hok. rewrite Forall_forall in Hok.
    destruct (Hok _ Hin) as [Hne Hpos]. cbn [snd] in *.
    apply sumZ_pos; [|exact Hpos].
    destruct tr; [contradiction | discriminate].
  - intros H. destruct (Dict.get str_eqb table k) as [tr|] eqn:E; [|lia].
    apply get_In in E; [|exact str_eqb_eq].
    unfold Dict.keys. apply in_map_iff. exists (k, tr). auto.
Qed.

Lemma count_of_keys (table : counts) (k c : pystr) (tr : Dict.t pystr Z) :
  counts_ok table ->
  Dict.get str_eqb table k = Some tr ->
  (In c (Dict.keys tr) <-> 0 < count_of table k c).
Proof.
  intros Hok Hget. unfold count_of. rewrite Hget.
  pose proof Hget as Hin. apply get_In in Hin; [|exact str_eqb_eq].
  unfold counts_ok in Hok. rewrite Forall_forall in Hok.
  destruct (Hok _ Hin) as [_ Hpos]. cbn [snd] in Hpos.
  rewrite Forall_forall in Hpos. split.
  - intros H. apply keys_get with (eqb := str_eqb) in H; [|exact str_eqb_eq].
    destruct H as (v & -> & Hv). apply Hpos.
    unfold Dict.values. apply in_map_iff. exists (c, v). auto.
  - intros H. destruct (Dict.get str_eqb tr c) as [v|] eqn:E; [|lia].
    apply get_In in E; [|exact str_eqb_eq].
    unfold Dict.keys. apply in_map_iff. exists (c, v). auto.
Qed.

Lemma combine_normalized (tr : Dict.t pystr Z) :
  combine (successors (normalized tr)) (weights (normalized tr))
  = map (fun cv =>
           (fst cv,
            Float.RN (inject_Z (snd cv)
                      / inject_Z (sumZ (Dict.values tr))))) tr.
Proof.
  unfold normalized. cbn [successors weights].
  generalize (sumZ (Dict.values tr)) as total. intros total.
  unfold Dict.keys, Dict.values.
  induction tr as [|[c v] tr IH]; [reflexivity|].
  cbn [map combine fst snd]. rewrite IH. reflexivity.
Qed.

Lemma round_pos_self (a : Z) : 0 < a -> Float.round_pos a a = 1%Q.
Proof.
  intros Ha. unfold Float.round_pos, Float.exponent. cbv zeta.
  rewrite Z.sub_diag. change (0 - 52) with (-52).
  assert (S52 : Float.scaled a a (-52) = (a * 2 ^ 52, a)) by reflexivity.
  rewrite S52.
  assert (E : (a * 2 ^ 52 <? 2 ^ 52 * a) = false) by (apply Z.ltb_ge; lia).
  rewrite E, S52.
  assert (R : Float.round_half_even (a * 2 ^ 52) a = 2 ^ 52).
  { unfold Float.round_half_even.
    rewrite (Z.mul_comm a), Z.div_mul, Z.mod_mul by lia.
    change (2 * 0) with 0. destruct a; try lia. reflexivity. }
  rewrite R. reflexivity.
Qed.

Lemma RN_self (v : Z) : 0 < v -> Float.RN (inject_Z v / inject_Z v) = 1%Q.
Proof.
  intros Hv. destruct v as [|p|p]; try lia.
  unfold Float.RN.
  change (Qnum (inject_Z (Z.pos p) / inject_Z (Z.pos p))) with (Z.pos (p * 1)).
  change (Qden (inject_Z (Z.pos p) / inject_Z (Z.pos p))) with p.
  rewrite Pos.mul_1_r. apply round_pos_self. lia.
Qed.

Lemma count_loop_first_key (gen : list (option pystr)) :
  forall (automaton automaton' : counts) (curr : pystr),
  automaton <> [] ->
  count_loop automaton curr gen = Ok automaton' ->
  Dict.first_key automaton' = Dict.first_key automaton.
Proof.
  induction gen as [|[c|] gen IH]; intros automaton automaton' curr Hne; simpl.
  - intros H. injection H as <-. reflexivity.
  - intros H. rewrite (IH _ _ _ (@bump_nonempty automaton curr c) H).
    unfold bump. apply first_key_upsert. exact Hne.
  - discriminate.
Qed.

Lemma transitions_lengths (items : list pystr) :
  Forall single items ->
  forall curr k c : pystr,
  (1 <= List.length curr)%nat ->
  In (k, c) (transitions curr items) ->
  List.length k = List.length curr.
Proof.
  induction 1 as [|c0 items Hc0 _ IH]; intros curr k c Hcurr; simpl; [tauto|].
  intros [H|H]; [injection H as -> _; reflexivity|].
  assert (Hlen : List.length (tl curr ++ c0) = List.length curr).
  { rewrite length_app, Hc0. destruct curr; simpl in *; lia. }
  rewrite <- Hlen. apply (IH _ k c); [lia | exact H].
Qed.

Section AutomatonOfText.
Context {L : Lowering}.

Lemma yields_singles (text : pystr) : Forall single (yields text true).
Proof.
  unfold yields. apply Forall_app. split; [apply filtered_singles|].
  destruct (filtered text true) as [|y ys] eqn:Ey.
  - rewrite (sentinel_none _ _ Ey). constructor.
  - pose proof (filtered_singles text) as Hs. rewrite Ey in Hs.
    inversion Hs as [|? ? Hy _]; subst.
    destruct (sentinel_first _ _ Ey) as [->|[-> _]];
      (constructor; [|constructor]); [exact Hy | reflexivity].
Qed.

(** X6. The possible ends of [create_automaton]: a [TypeError] when nothing
    passes the filter, whatever the order; a [StopIteration] when the values
    of the generator, the closing one included, are fewer than [order]; an
    automaton in every other case. No other exception leaves the builder. *)
Theorem create_automaton_outcome
  (order : Z) (text : pystr) (ignore_case : bool) :
  (filtered text ignore_case = []
   /\ create_automaton order text ignore_case = Raise TypeError)
  \/ (filtered text ignore_case <> []
      /\ (S (List.length (filtered text ignore_case)) < Z.to_nat order)%nat
      /\ create_automaton order text ignore_case = Raise StopIteration)
  \/ (filtered text ignore_case <> []
      /\ (Z.to_nat order <= S (List.length (filtered text ignore_case)))%nat
      /\ exists automaton : Automaton,
           create_automaton order text ignore_case = Ok automaton).
Proof.
  destruct (filtered text ignore_case) as [|y ys] eqn:Ey.
  - left. split; [reflexivity|]. apply create_automaton_nothing, Ey.
  - right.
    assert (Hne : filtered text ignore_case <> [])
      by (rewrite Ey; discriminate).
    unfold create_automaton.
    rewrite (next_character_yields _ _ Hne), prime_somes.
    rewrite (yields_length _ _ Hne), Ey.
    destruct (Nat.leb_spec (Z.to_nat order) (S (List.length (y :: ys))))
      as [Hle|Hgt].
    + right. split; [discriminate|]. split; [exact Hle|]. cbn [bind app].
      destruct (count_loop_somes
                  (skipn (Z.to_nat order) (yields text ignore_case))
                  (@nil (pystr * Dict.t pystr Z))
                  (concat (firstn (Z.to_nat order) (yields text ignore_case))))
        as (table & Etable & _).
      rewrite Etable. cbn [bind].
      apply normalize_automaton_total.
      eapply count_loop_ok; [|exact Etable]. constructor.
    + left. split; [discriminate|]. split; [exact Hgt | reflexivity].
Qed.

(** X7. The contexts of the automaton are the contexts the builder went
    through: a string is a key exactly when some character was read after it.
    *)
Theorem automaton_contexts
  (order : Z) (text : pystr) (ignore_case : bool) (automaton : Automaton)
  (k : pystr) :
  create_automaton order text ignore_case = Ok automaton ->
  (In k (Dict.keys automaton)
   <-> exists c : pystr, In (k, c) (observed order text ignore_case)).
Proof.
  intros H.
  destruct (create_automaton_table _ _ _ H)
    as (table & _ & -> & Hok & _ & _ & Hcnt).
  rewrite keys_normalized, (row_total_keys k Hok).
  destruct (Hcnt k []) as [_ ->]. apply visits_In.
Qed.

(** X8. The successors of a context are the characters read after it, each
    listed once. *)
Theorem successors_observed
  (order : Z) (text : pystr) (ignore_case : bool) (automaton : Automaton)
  (k : pystr) (e : entry) (c : pystr) :
  create_automaton order text ignore_case = Ok automaton ->
  Dict.get str_eqb automaton k = Some e ->
  (In c (successors e) <-> In (k, c) (observed order text ignore_case)).
Proof.
  intros H Hget.
  destruct (create_automaton_table _ _ _ H)
    as (table & _ & -> & Hok & _ & _ & Hcnt).
  rewrite get_normalized in Hget.
  destruct (Dict.get str_eqb table k) as [tr|] eqn:Etr; [|discriminate].
  injection Hget as <-. cbn [successors normalized].
  rewrite (@count_of_keys table k c tr Hok Etr).
  destruct (Hcnt k c) as [-> _]. apply occurrences_In.
Qed.

(** X9. The probability of a successor is its relative frequency: the float
    nearest to the number of times the character was read after the context,
    divided by the number of times the context was met. *)
Theorem probabilities_are_frequencies
  (order : Z) (text : pystr) (ignore_case : bool) (automaton : Automaton)
  (k : pystr) (e : entry) (c : pystr) (w : float) :
  create_automaton order text ignore_case = Ok automaton ->
  Dict.get str_eqb automaton k = Some e ->
  In (c, w) (combine (successors e) (weights e)) ->
  w = Float.RN
        (inject_Z (occurrences k c (observed order text ignore_case))
         / inject_Z (visits k (observed order text ignore_case))).
Proof.
  intros H Hget Hin.
  destruct (create_automaton_table _ _ _ H)
    as (table & _ & -> & Hok & _ & Hrows & Hcnt).
  rewrite get_normalized in Hget.
  destruct (Dict.get str_eqb table k) as [tr|] eqn:Etr; [|discriminate].
  injection Hget as <-. rewrite combine_normalized in Hin.
  apply in_map_iff in Hin as ([c' v] & E & Hcv). cbn [fst snd] in E.
  injection E as -> <-.
  pose proof Etr as Hktr. apply get_In in Hktr; [|exact str_eqb_eq].
  rewrite Forall_forall in Hrows. pose proof (Hrows _ Hktr) as Hnd.
  cbn [snd] in Hnd.
  pose proof (get_NoDup_In str_eqb str_eqb_eq _ _ _ Hnd Hcv) as Hv.
  destruct (Hcnt k c) as [Hocc Hvis].
  unfold count_of in Hocc. rewrite Etr, Hv in Hocc.
  unfold row_total in Hvis. rewrite Etr in Hvis.
  rewrite <- Hocc, <- Hvis. reflexivity.
Qed.

(** X10. A context that was followed by one character only holds it with the
    probability 1.0 exactly. *)
Theorem single_successor_is_certain
  (order : Z) (text : pystr) (ignore_case : bool) (automaton : Automaton)
  (k : pystr) (e : entry) (c : pystr) :
  create_automaton order text ignore_case = Ok automaton ->
  Dict.get str_eqb automaton k = Some e ->
  successors e = [c] ->
  weights e = [1%Q].
Proof.
  intros H Hget Hc.
  destruct (create_automaton_table _ _ _ H)
    as (table & _ & -> & Hok & _ & _ & _).
  rewrite get_normalized in Hget.
  destruct (Dict.get str_eqb table k) as [tr|] eqn:Etr; [|discriminate].
  injection Hget as <-. cbn [successors weights normalized] in *.
  apply get_In in Etr; [|exact str_eqb_eq].
  unfold counts_ok in Hok. rewrite Forall_forall in Hok.
  destruct (Hok _ Etr) as [_ Hpos]. cbn [snd] in Hpos.
  destruct tr as [|[c0 v] [|]]; try discriminate.
  unfold Dict.values in *. cbn [map snd] in *.
  inversion Hpos as [|? ? Hv _]; subst.
  rewrite sumZ_cons. unfold sumZ. cbn [fold_left]. rewrite Z.add_0_r.
  rewrite (RN_self Hv). reflexivity.
Qed.

(** X11. No context is listed twice in an automaton the builder returns, and
    no successor twice after a context. *)
Theorem automaton_without_repeats
  (order : Z) (text : pystr) (ignore_case : bool) (automaton : Automaton) :
  create_automaton order text ignore_case = Ok automaton ->
  NoDup (Dict.keys automaton)
  /\ Forall (fun kv => NoDup (successors (snd kv))) automaton.
Proof.
  intros H.
  destruct (create_automaton_table _ _ _ H)
    as (table & _ & -> & _ & Hnd & Hrows & _).
  rewrite keys_normalized. split; [exact Hnd|].
  rewrite Forall_map. exact Hrows.
Qed.

(** X12. The first key of the automaton, where [generate] starts, is made of
    the first [order] values the filter yields. *)
Theorem first_context
  (order : Z) (text : pystr) (ignore_case : bool) :
  filtered text ignore_case <> [] ->
  (Z.to_nat order <= List.length (filtered text ignore_case))%nat ->
  exists automaton : Automaton,
    create_automaton order text ignore_case = Ok automaton
    /\ Dict.first_key automaton
       = Ok (concat (firstn (Z.to_nat order) (filtered text ignore_case))).
Proof.
  intros Hne Hle.
  destruct (create_automaton_total order _ _ Hne Hle) as (automaton & E & _).
  exists automaton. split; [exact E|].
  destruct (create_automaton_table _ _ _ E)
    as (table & Ht & -> & _ & _ & _ & _).
  assert (Hfirst : Dict.first_key
                     (map (fun kv => (fst kv, normalized (snd kv))) table)
                   = Dict.first_key table)
    by (destruct table as [|[k0 tr0] table]; reflexivity).
  rewrite Hfirst.
  destruct (sentinel_some _ _ Hne) as [s Hs].
  unfold yields in Ht. rewrite Hs in Ht.
  rewrite firstn_app in Ht.
  replace (Z.to_nat order - List.length (filtered text ignore_case))%nat
    with O in Ht by lia.
  cbn [firstn] in Ht. rewrite app_nil_r in Ht.
  destruct (skipn (Z.to_nat order) (filtered text ignore_case ++ [s]))
    as [|c rest] eqn:Eskip.
  - apply (f_equal (@List.length pystr)) in Eskip.
    rewrite length_skipn, length_app in Eskip. simpl in Eskip. lia.
  - cbn [map count_loop] in Ht.
    rewrite (count_loop_first_key _ _ (@bump_nonempty [] _ c) Ht).
    reflexivity.
Qed.

(** X13. With the case kept and an order of at least 1, every context of the
    automaton has exactly [order] characters. *)
Theorem contexts_have_order_characters
  (order : Z) (text : pystr) (automaton : Automaton) (k : pystr) :
  1 <= order ->
  create_automaton order text true = Ok automaton ->
  In k (Dict.keys automaton) ->
  List.length k = Z.to_nat order.
Proof.
  intros Horder H Hk.
  destruct (create_automaton_inv _ _ _ H) as (Hne & Hle & _).
  destruct (create_automaton_table _ _ _ H)
    as (table & _ & -> & Hok & _ & _ & Hcnt).
  rewrite keys_normalized, (row_total_keys k Hok) in Hk.
  destruct (Hcnt k []) as [_ Hvis]. rewrite Hvis in Hk.
  apply visits_In in Hk as [c Hc]. unfold observed in Hc.
  pose proof (yields_singles text) as Hs.
  rewrite <- (firstn_skipn (Z.to_nat order) (yields text true)) in Hs.
  apply Forall_app in Hs as [Hfirst Hskip].
  assert (Hcurr : List.length
                    (concat (firstn (Z.to_nat order) (yields text true)))
                  = Z.to_nat order).
  { rewrite (concat_singles Hfirst).
    apply firstn_length_le. rewrite (yields_length _ _ Hne). exact Hle. }
  rewrite <- Hcurr.
  apply (transitions_lengths Hskip) with (c := c);
    [rewrite Hcurr; lia | exact Hc].
Qed.

End AutomatonOfText.

(** ** Normalisation of any table *)

(** X14. A table whose rows are empty or have a sum of counts other than zero
    is normalised row by row: the states keep their order, the successors
    theirs, and each probability is the float nearest to the count divided by
    the sum of the row. The counts are taken in the range where the quotients
    are normal numbers of binary64, as the model of the division has it. *)
Theorem normalize_automaton_rows (table : counts) :
  NoDup (Dict.keys table) ->
  Forall (fun kv => in_range (snd kv)) table ->
  Forall (fun kv => divisible (snd kv)) table ->
  normalize_automaton table
  = Ok (map (fun kv => (fst kv, normalized (snd kv))) table).
Proof.
  intros Hnd _ Hall. unfold normalize_automaton.
  rewrite normalize_loop_rows; [reflexivity | exact Hnd | exact Hall].
Qed.

(** X15. A row that is not empty and whose counts sum to zero ends the
    normalisation with the [ZeroDivisionError] of the division: no value is
    returned for the other rows either. *)
Theorem normalize_automaton_zero_division (table : counts) :
  Forall (fun kv => in_range (snd kv)) table ->
  Exists (fun kv => ~ divisible (snd kv)) table ->
  normalize_automaton table = Raise ZeroDivisionError.
Proof. intros _ H. apply normalize_loop_zero, H. Qed.

(** ** The pairs of the builder, from the values of the generator *)

Lemma transitions_windows (n : nat) (l : list pystr) :
  Forall single l ->
  transitions (concat (firstn (S n) l)) (skipn (S n) l) = windows (S n) l.
Proof.
  induction 1 as [|y l Hy Hl IH]; [reflexivity|].
  cbn [windows nth_error firstn skipn concat].
  destruct (nth_error l n) as [c|] eqn:Ec.
  - assert (Hskip : skipn n l = c :: skipn (S n) l).
    { clear - Ec. revert l Ec. induction n as [|n IHn]; intros [|a l] Ec;
        try discriminate.
      - injection Ec as ->. reflexivity.
      - cbn [nth_error] in Ec. cbn [skipn]. apply (IHn l Ec). }
    assert (Hfirst : firstn (S n) l = firstn n l ++ [c]).
    { clear - Ec. revert l Ec. induction n as [|n IHn]; intros [|a l] Ec;
        try discriminate.
      - injection Ec as ->. reflexivity.
      - cbn [nth_error] in Ec. cbn [firstn app]. f_equal.
        apply (IHn l Ec). }
    rewrite Hskip. cbn [transitions]. f_equal.
    rewrite <- IH. f_equal.
    rewrite Hfirst, concat_app. cbn [concat]. rewrite app_nil_r.
    destruct y as [|a [|b y]]; try discriminate. reflexivity.
  - apply nth_error_None in Ec.
    rewrite skipn_all2 by exact Ec. reflexivity.
Qed.

(** A row under the empty context is left alone by a loop that never meets
    the empty context. *)
Lemma count_loop_frame (items : list pystr) :
  forall (automaton table : counts) (curr : pystr) (row : Dict.t pystr Z),
  curr <> [] ->
  Forall (fun c : pystr => c <> []) items ->
  count_loop automaton curr (map Some items) = Ok table ->
  count_loop (([], row) :: automaton) curr (map Some items)
  = Ok (([], row) :: table).
Proof.
  induction items as [|c items IH];
    intros automaton table curr row Hcurr Hall H.
  - simpl in *. injection H as <-. reflexivity.
  - inversion Hall as [|? ? Hc Hitems]; subst. cbn [map count_loop] in *.
    assert (Hb : bump (([], row) :: automaton) curr c
                 = ([], row) :: bump automaton curr c).
    { unfold bump. cbn [Dict.upsert].
      destruct curr; [contradiction | reflexivity]. }
    rewrite Hb. apply IH; [|exact Hitems | exact H].
    intros E. apply app_eq_nil in E as [_ E]. contradiction.
Qed.

Section ObservedFacts.
Context {L : Lowering}.

Lemma observed_windows (order : Z) (text : pystr) :
  1 <= order ->
  observed order text true = windows (Z.to_nat order) (yields text true).
Proof.
  intros Horder. unfold observed.
  destruct (Z.to_nat order) as [|n] eqn:En; [lia|].
  apply transitions_windows, yields_singles.
Qed.

(** X16. With the case kept and an order of at least 1, the automaton is that
    of the sliding windows over the values of the generator, the closing value
    included: its keys are the groups of [order] consecutive values that are
    followed by a value, and the successors of a key are the values that
    follow it somewhere. *)
Theorem automaton_of_sliding_windows
  (order : Z) (text : pystr) (automaton : Automaton) :
  1 <= order ->
  create_automaton order text true = Ok automaton ->
  (forall k : pystr,
     In k (Dict.keys automaton)
     <-> exists c : pystr,
           In (k, c) (windows (Z.to_nat order) (yields text true)))
  /\ (forall (k : pystr) (e : entry) (c : pystr),
        Dict.get str_eqb automaton k = Some e ->
        (In c (successors e)
         <-> In (k, c) (windows (Z.to_nat order) (yields text true)))).
Proof.
  intros Horder H. rewrite <- (observed_windows text Horder).
  destruct (create_automaton_table _ _ _ H)
    as (table & _ & -> & Hok & _ & _ & Hcnt).
  split.
  - intros k. rewrite keys_normalized, (row_total_keys k Hok).
    destruct (Hcnt k []) as [_ ->]. apply visits_In.
  - intros k e c Hget. rewrite get_normalized in Hget.
    destruct (Dict.get str_eqb table k) as [tr|] eqn:Etr; [|discriminate].
    injection Hget as <-. cbn [successors normalized].
    rewrite (@count_of_keys table k c tr Hok Etr).
    destruct (Hcnt k c) as [-> _]. apply occurrences_In.
Qed.

(** X17. An order of zero or less is no error. With the case kept the builder
    returns the automaton of order 1 with one more state in front: the empty
    context, whose only successor is the first value yielded. *)
Theorem create_automaton_nonpositive_order (order : Z) (text : pystr) :
  order <= 0 ->
  create_automaton order text true
  = match filtered text true with
    | [] => Raise TypeError
    | y :: _ =>
        automaton <- create_automaton 1 text true ;;
        Ok (([], {| shape := Tuple; successors := [y]; weights := [1%Q] |})
            :: automaton)
    end.
Proof.
  intros Horder.
  destruct (filtered text true) as [|y ys] eqn:Ey.
  - apply create_automaton_nothing, Ey.
  - assert (Hne : filtered text true <> []) by (rewrite Ey; discriminate).
    destruct (sentinel_some _ _ Hne) as [s Hs].
    assert (Hy : yields text true = y :: (ys ++ [s]))
      by (unfold yields; rewrite Ey, Hs; reflexivity).
    pose proof (yields_singles text) as Hsing. rewrite Hy in Hsing.
    inversion Hsing as [|? ? Hy1 Hrest]; subst.
    unfold create_automaton.
    rewrite (next_character_yields _ _ Hne), !prime_somes, Hy.
    replace (Z.to_nat order) with O by lia. change (Z.to_nat 1) with 1%nat.
    cbn [List.length Nat.leb firstn skipn concat app bind map count_loop tl].
    rewrite app_nil_r.
    destruct (count_loop_somes (ys ++ [s]) (@nil (pystr * Dict.t pystr Z)) y)
      as (table & Etable & _).
    rewrite Etable. cbn [bind].
    assert (Hy0 : y <> []) by (destruct y; discriminate).
    assert (Hitems : Forall (fun c : pystr => c <> []) (ys ++ [s])).
    { eapply Forall_impl; [|exact Hrest].
      intros c Hc. destruct c; discriminate. }
    pose proof (@count_loop_frame (ys ++ [s]) [] table y [(y, 1)]
                  Hy0 Hitems Etable) as Eframe.
    match goal with
    | |- bind ?r _ = _ =>
        replace r with (Ok (([], [(y, 1)]) :: table) : result counts)
          by (symmetry; exact Eframe)
    end.
    cbn [bind].
    assert (Hok : counts_ok (([], [(y, 1)]) :: table)).
    { eapply count_loop_ok; [|exact Eframe].
      constructor; [|constructor]. split; [discriminate|].
      constructor; [reflexivity | constructor]. }
    assert (Hnd : NoDup (Dict.keys (([], [(y, 1)]) :: table))).
    { eapply count_loop_NoDup; [|exact Eframe].
      constructor; [intros [] | constructor]. }
    unfold normalize_automaton.
    rewrite (@normalize_loop_rows (([], [(y, 1)]) :: table) [])
      by (try exact Hnd; apply counts_ok_divisible, Hok).
    inversion Hok as [|? ? _ Hok']; subst.
    inversion Hnd as [|? ? _ Hnd']; subst.
    rewrite (@normalize_loop_rows table [])
      by (try exact Hnd'; apply counts_ok_divisible, Hok').
    reflexivity.
Qed.

End ObservedFacts.

(** ** The builder, case by case *)

Lemma normalized_single (tr : Dict.t pystr Z) (c : pystr) :
  transitions_ok tr ->
  successors (normalized tr) = [c] ->
  weights (normalized tr) = [1%Q].
Proof.
  intros [_ Hpos] Hc. cbn [successors weights normalized] in *.
  destruct tr as [|[c0 v] [|]]; try discriminate.
  unfold Dict.values in *. cbn [map snd] in *.
  inversion Hpos as [|? ? Hv _]; subst.
  rewrite sumZ_cons. unfold sumZ. cbn [fold_left]. rewrite Z.add_0_r.
  rewrite (RN_self Hv). reflexivity.
Qed.

Section BuilderCases.
Context {L : Lowering}.

Lemma create_automaton_stops (order : Z) (text : pystr) (ignore_case : bool) :
  filtered text ignore_case <> [] ->
  (S (List.length (filtered text ignore_case)) < Z.to_nat order)%nat ->
  create_automaton order text ignore_case = Raise StopIteration.
Proof.
  intros Hne Hlt. unfold create_automaton.
  rewrite (next_character_yields _ _ Hne), prime_somes.
  rewrite (yields_length _ _ Hne).
  destruct (Nat.leb_spec (Z.to_nat order)
              (S (List.length (filtered text ignore_case)))); [lia|].
  reflexivity.
Qed.

Lemma create_automaton_exact (order : Z) (text : pystr) (ignore_case : bool) :
  filtered text ignore_case <> [] ->
  Z.to_nat order = S (List.length (filtered text ignore_case)) ->
  create_automaton order text ignore_case = Ok [].
Proof.
  intros Hne Hn. unfold create_automaton.
  rewrite (next_character_yields _ _ Hne), prime_somes.
  rewrite (yields_length _ _ Hne).
  destruct (Nat.leb_spec (Z.to_nat order)
              (S (List.length (filtered text ignore_case)))); [|lia].
  cbn [bind]. rewrite skipn_all2; [reflexivity|].
  rewrite (yields_length _ _ Hne). lia.
Qed.

(** A successor of a context was read after it. *)
Lemma successor_was_observed
  (order : Z) (text : pystr) (ignore_case : bool) (automaton : Automaton)
  (k : pystr) (e : entry) (c : pystr) :
  create_automaton order text ignore_case = Ok automaton ->
  Dict.get str_eqb automaton k = Some e ->
  In c (successors e) ->
  In (k, c) (observed order text ignore_case).
Proof.
  intros H Hget Hc.
  destruct (create_automaton_table _ _ _ H)
    as (table & _ & -> & Hok & _ & _ & Hcnt).
  rewrite get_normalized in Hget.
  destruct (Dict.get str_eqb table k) as [tr|] eqn:Etr; [|discriminate].
  injection Hget as <-. cbn [successors normalized] in Hc.
  apply (@count_of_keys table k c tr Hok Etr) in Hc.
  destruct (Hcnt k c) as [Hocc _]. rewrite Hocc in Hc.
  apply occurrences_In, Hc.
Qed.

(** Every value of a built automaton can be sampled: it has a successor, as
    many probabilities as successors, all positive, and its successors are
    listed once. *)
Lemma create_automaton_entries
  (order : Z) (text : pystr) (ignore_case : bool) (automaton : Automaton)
  (k : pystr) (e : entry) :
  create_automaton order text ignore_case = Ok automaton ->
  In (k, e) automaton ->
  successors e <> []
  /\ List.length (successors e) = List.length (weights e)
  /\ Forall (fun w => (0 < w)%Q) (weights e)
  /\ NoDup (successors e)
  /\ (forall c : pystr, successors e = [c] -> weights e = [1%Q]).
Proof.
  intros H Hin.
  destruct (create_automaton_table _ _ _ H)
    as (table & _ & -> & Hok & _ & Hrows & _).
  apply in_map_iff in Hin as ([k' tr] & E & Hin). cbn [fst snd] in E.
  injection E as -> <-.
  unfold counts_ok in Hok. rewrite Forall_forall in Hok.
  pose proof (Hok _ Hin) as Htr. cbn [snd] in Htr.
  rewrite Forall_forall in Hrows. pose proof (Hrows _ Hin) as Hnd.
  cbn [snd] in Hnd.
  destruct (normalize_entry_spec Htr)
    as (e' & Ee' & _ & Hsucc & Hlen & Hpos & _).
  rewrite normalize_entry_divisible in Ee'
    by (right; pose proof (sumZ_pos (l := Dict.values tr)) as P;
        destruct Htr as [Hne Hp];
        assert (Dict.values tr <> [])
          by (destruct tr; [contradiction | discriminate]);
        specialize (P H0 Hp); lia).
  injection Ee' as <-.
  split; [|split; [exact Hlen | split; [exact Hpos | split; [exact Hnd|]]]].
  - rewrite Hsucc. destruct Htr as [Hne _].
    destruct tr; [contradiction | discriminate].
  - intros c. apply normalized_single, Htr.
Qed.

(** The first key of a built automaton is the context of the first pair
    the builder went through. *)
Lemma first_key_observed
  (order : Z) (text : pystr) (ignore_case : bool) (automaton : Automaton)
  (state : pystr) :
  create_automaton order text ignore_case = Ok automaton ->
  Dict.first_key automaton = Ok state ->
  exists c : pystr,
    hd_error (observed order text ignore_case) = Some (state, c).
Proof.
  intros H Hfirst.
  destruct (create_automaton_table _ _ _ H)
    as (table & Ht & -> & _ & _ & _ & _).
  assert (Hkey : Dict.first_key table = Ok state)
    by (destruct table as [|[k0 tr0] table]; [discriminate | exact Hfirst]).
  unfold observed.
  destruct (skipn (Z.to_nat order) (yields text ignore_case)) as [|c rest].
  - cbn [map count_loop] in Ht. injection Ht as <-. discriminate.
  - cbn [map count_loop] in Ht.
    rewrite (count_loop_first_key _ _ (@bump_nonempty [] _ c) Ht) in Hkey.
    cbn [bump Dict.upsert Dict.first_key] in Hkey. injection Hkey as <-.
    exists c. reflexivity.
Qed.

End BuilderCases.

(** ** The walk on a built automaton *)

Section WalkMore.
Context {R : Random}.

Lemma choices_In (population : list pystr) (ws : list float) (g g' : rng)
  (c : pystr) :
  choices population ws g = Ok (c, g') -> In c population.
Proof.
  unfold choices. destruct (negb _); [discriminate|].
  destruct (rev (accumulate ws)) as [|total rest]; [discriminate|].
  destruct (Float.leb total 0%Q); [discriminate|].
  destruct (random g) as [r g1].
  destruct (nth_error population _) as [c'|] eqn:E; [|discriminate].
  intros H. injection H as <- _. eapply nth_error_In, E.
Qed.

(** Each turn of the walk stores a successor of the current context. *)
Lemma walk_successors (automaton : Automaton) (n : nat) :
  forall (state : pystr) (g : rng) (res : list pystr),
  walk automaton n state g = Ok res ->
  Forall (fun p => exists e : entry,
            Dict.get str_eqb automaton (fst p) = Some e
            /\ In (snd p) (successors e))
    (transitions state res).
Proof.
  induction n as [|n IH]; intros state g res; simpl.
  - intros H. injection H as <-. constructor.
  - intros H. apply bind_ok in H as (e & He & H).
    apply bind_ok in H as ([c g'] & Hc & H).
    apply bind_ok in H as (res' & Hres & H). injection H as <-.
    cbn [transitions]. constructor.
    + exists e. cbn [fst snd]. split; [|eapply choices_In; exact Hc].
      unfold Dict.item in He.
      destruct (Dict.get str_eqb automaton state); [|discriminate].
      injection He as ->. reflexivity.
    + eapply IH. exact Hres.
Qed.

(** On an automaton whose values can all be sampled the walk fails at a
    lookup only. *)
Lemma walk_raises (automaton : Automaton) (n : nat) :
  (forall k e, In (k, e) automaton ->
     successors e <> []
     /\ List.length (successors e) = List.length (weights e)
     /\ Forall (fun w => (0 < w)%Q) (weights e)) ->
  forall (state : pystr) (g : rng) (x : exn),
  walk automaton n state g = Raise x -> x = KeyError /\ (0 < n)%nat.
Proof.
  intros Hall. induction n as [|n IH]; intros state g x; simpl; [discriminate|].
  unfold Dict.item.
  destruct (Dict.get str_eqb automaton state) as [e|] eqn:E; cbn [bind].
  - apply get_In in E; [|exact str_eqb_eq].
    destruct (Hall _ _ E) as (Hne & Hlen & Hpos).
    assert (Hws : weights e <> []).
    { intros E0. rewrite E0 in Hlen.
      destruct (successors e); [contradiction | discriminate]. }
    destruct (choices_total (successors e) g Hlen Hws Hpos) as (c & Ec & _).
    rewrite Ec. cbn [bind].
    destruct (walk automaton n (tl state ++ c) (snd (random g)))
      as [res|y] eqn:W; cbn [bind]; [discriminate|].
    intros H. injection H as <-. split; [|lia]. eapply IH. exact W.
  - intros H. injection H as <-. split; [reflexivity | lia].
Qed.

(** Where every context has one successor, of a positive weight, the walk
    does not depend on the generator. *)
Lemma walk_without_choice (automaton : Automaton) (n : nat) :
  (forall k e, Dict.get str_eqb automaton k = Some e ->
     exists c : pystr, successors e = [c] /\ weights e = [1%Q]) ->
  forall (state : pystr) (g g' : rng),
  walk automaton n state g = walk automaton n state g'.
Proof.
  intros Hall. induction n as [|n IH]; intros state g g'; simpl; [reflexivity|].
  unfold Dict.item.
  destruct (Dict.get str_eqb automaton state) as [e|] eqn:E; cbn [bind];
    [|reflexivity].
  destruct (Hall _ _ E) as (c & -> & ->).
  rewrite !choices_singleton by reflexivity. cbn [bind].
  rewrite (IH _ (snd (random g)) (snd (random g'))). reflexivity.
Qed.

Lemma get_reloaded (automaton : Automaton) (k : pystr) :
  Dict.get str_eqb (reloaded automaton) k
  = option_map as_list (Dict.get str_eqb automaton k).
Proof.
  unfold reloaded. induction automaton as [|[k0 e0] automaton IH]; simpl;
    [reflexivity|].
  destruct (str_eqb k k0); [reflexivity | exact IH].
Qed.

Lemma walk_reloaded (automaton : Automaton) (n : nat) :
  forall (state : pystr) (g : rng),
  walk (reloaded automaton) n state g = walk automaton n state g.
Proof.
  induction n as [|n IH]; intros state g; simpl; [reflexivity|].
  unfold Dict.item. rewrite get_reloaded.
  destruct (Dict.get str_eqb automaton state) as [e|]; cbn [option_map bind];
    [|reflexivity].
  cbn [as_list successors weights].
  destruct (choices (successors e) (weights e) g) as [[c g']|x]; cbn [bind];
    [|reflexivity].
  rewrite IH. reflexivity.
Qed.

Lemma generate_from_reloaded (automaton : Automaton) (length : Z) (g : rng) :
  generate_from (reloaded automaton) length g
  = generate_from automaton length g.
Proof.
  unfold generate_from.
  destruct automaton as [|[k e] automaton]; [reflexivity|].
  cbn [reloaded map fst Dict.first_key bind].
  change ((k, as_list (snd (k, e)))
          :: map (fun kv => (fst kv, as_list (snd kv))) automaton)
    with (reloaded ((k, e) :: automaton)).
  rewrite walk_reloaded. reflexivity.
Qed.

End WalkMore.

(** ** The entry point, case by case *)

Section GenerateMore.
Context {L : Lowering} {R : Random}.

(** The four ends of [generate] on a text file. *)
Lemma generate_raw_cases
  (length order : Z) (file : source_file) (seed : option Z)
  (export ignore_case : bool) (entropy : Z) :
  let r := returned (generate length order file seed export true ignore_case
                       entropy) in
  let passing := filtered (file_text file) ignore_case in
  (passing = [] /\ r = Raise TypeError)
  \/ (passing <> [] /\ (S (List.length passing) <= Z.to_nat order)%nat
      /\ r = Raise StopIteration)
  \/ (passing <> [] /\ (Z.to_nat order <= List.length passing)%nat
      /\ exists s : pystr, r = Ok s)
  \/ (passing <> [] /\ (Z.to_nat order <= List.length passing)%nat
      /\ 0 < length /\ r = Raise KeyError).
Proof.
  intros r passing. subst r passing. unfold generate.
  destruct (filtered (file_text file) ignore_case) as [|y ys] eqn:Ey.
  - left. split; [reflexivity|].
    rewrite (create_automaton_nothing order ignore_case _ Ey). reflexivity.
  - right. rewrite <- Ey.
    assert (Hne : filtered (file_text file) ignore_case <> [])
      by (rewrite Ey; discriminate).
    destruct (Nat.le_gt_cases (Z.to_nat order)
                (List.length (filtered (file_text file) ignore_case)))
      as [Hle|Hgt].
    + right.
      destruct (create_automaton_total order _ _ Hne Hle)
        as (automaton & E & Ha).
      rewrite E. cbn [returned]. unfold generate_from.
      destruct automaton as [|[k0 e0] rest] eqn:Eaut; [contradiction|].
      cbn [Dict.first_key bind]. rewrite <- Eaut in *.
      destruct (walk automaton (Z.to_nat length) k0
                  (random_seed seed entropy)) as [res|x] eqn:W; cbn [bind].
      * left. split; [exact Hne|]. split; [exact Hle|]. eexists. reflexivity.
      * right. split; [exact Hne|]. split; [exact Hle|].
        apply walk_raises in W.
        -- destruct W as [-> Hn]. split; [lia | reflexivity].
        -- intros k e Hin.
           destruct (create_automaton_entries _ _ _ _ _ E Hin)
             as (H1 & H2 & H3 & _). auto.
    + left. split; [exact Hne|]. split; [lia|].
      destruct (Nat.eq_dec (Z.to_nat order)
                  (S (List.length (filtered (file_text file) ignore_case))))
        as [Heq|Hneq].
      * rewrite (create_automaton_exact _ _ _ Hne Heq). reflexivity.
      * rewrite (create_automaton_stops _ _ _ Hne) by lia. reflexivity.
Qed.

(** What a successful call on a text file returns, turn by turn. *)
Lemma generate_raw_returns
  (length order : Z) (file : source_file) (seed : option Z)
  (export ignore_case : bool) (entropy : Z) (s : pystr) :
  returned (generate length order file seed export true ignore_case entropy)
  = Ok s ->
  exists (automaton : Automaton) (state : pystr) (res : list pystr),
    create_automaton order (file_text file) ignore_case = Ok automaton
    /\ Dict.first_key automaton = Ok state
    /\ walk automaton (Z.to_nat length) state (random_seed seed entropy)
       = Ok res
    /\ s = concat res.
Proof.
  unfold generate.
  destruct (create_automaton order (file_text file) ignore_case)
    as [automaton|x]; cbn [returned]; [|discriminate].
  unfold generate_from. intros H.
  apply bind_ok in H as (state & Hstate & H).
  apply bind_ok in H as (res & Hres & H). injection H as <-.
  exists automaton, state, res. auto.
Qed.

End GenerateMore.

Lemma transitions_snd (items : list pystr) :
  forall curr : pystr, map snd (transitions curr items) = items.
Proof.
  induction items as [|c items IH]; intros curr; simpl; [reflexivity|].
  rewrite IH. reflexivity.
Qed.

Section OutputFacts.
Context {L : Lowering} {R : Random}.

(** The values stored by a successful call on a text file: as many as
    [length] asks, each one a value the generator yielded on the text. *)
Lemma generate_raw_values
  (length order : Z) (file : source_file) (seed : option Z)
  (export ignore_case : bool) (entropy : Z) (s : pystr) :
  returned (generate length order file seed export true ignore_case entropy)
  = Ok s ->
  exists res : list pystr,
    s = concat res
    /\ List.length res = Z.to_nat length
    /\ Forall (fun y => In y (yields (file_text file) ignore_case)) res.
Proof.
  intros H.
  destruct (generate_raw_returns _ _ _ _ _ _ _ H)
    as (automaton & state & res & E & _ & W & ->).
  exists res. split; [reflexivity|].
  split; [eapply walk_length; exact W|].
  pose proof (walk_successors _ _ _ _ W) as Hall.
  rewrite <- (transitions_snd res state), Forall_map.
  eapply Forall_impl; [|exact Hall].
  intros [k c] (e & Hget & Hc). cbn [fst snd] in *.
  pose proof (successor_was_observed _ _ _ _ _ E Hget Hc) as Hobs.
  unfold observed in Hobs. apply transitions_In in Hobs.
  rewrite <- (firstn_skipn (Z.to_nat order)
                (yields (file_text file) ignore_case)).
  apply in_or_app. right. exact Hobs.
Qed.

(** Where a value of the generator comes from, when the case is kept: it is
    one character, and that character stands in the text and is none of tab,
    carriage return, vertical tab and form feed, or is the space put for a
    newline of the text. *)
Lemma yields_sources (text : pystr) :
  Forall (fun y => exists ch : char,
            y = [ch]
            /\ ((In ch text /\ dropped ch = false)
                \/ (ch = SPACE /\ In NL text)))
    (yields text true).
Proof.
  unfold yields. apply Forall_app. split.
  - unfold filtered.
    erewrite filter_loop_described with (before := []) by reflexivity.
    eapply Forall_impl; [|apply described_yields].
    intros y [[-> Hin]|(c & Hin & Hc & ->)].
    + exists SPACE. split; [reflexivity|]. right. auto.
    + exists c. split; [reflexivity|]. left. split; [exact Hin|].
      rewrite char_in_non_printable in Hc.
      apply orb_false_iff in Hc as [_ Hc]. exact Hc.
  - unfold sentinel.
    destruct (filter_loop_hd_first true text init_state eq_refl eq_refl)
      as [-> _].
    destruct (find kept text) as [c|] eqn:Ef; [|constructor].
    apply find_some in Ef as [Hin Hk]. unfold kept in Hk.
    apply negb_true_iff in Hk.
    destruct (N.eqb c NL) eqn:En; (constructor; [|constructor]).
    + apply N.eqb_eq in En. subst c. exists NL. split; [reflexivity|]. auto.
    + exists c. split; [reflexivity|]. auto.
Qed.

(** X18. The text [generate] returns is a chain of observed steps: it is made
    of [length] values, the walk starts from the first context the builder
    went through, and each value was read, in the training text, after the
    context that the walk had reached. *)
Theorem generated_pairs_were_observed
  (length order : Z) (file : source_file) (seed : option Z)
  (export ignore_case : bool) (entropy : Z) (s : pystr) :
  returned (generate length order file seed export true ignore_case entropy)
  = Ok s ->
  exists (state c : pystr) (res : list pystr),
    hd_error (observed order (file_text file) ignore_case) = Some (state, c)
    /\ s = concat res
    /\ List.length res = Z.to_nat length
    /\ Forall (fun p => In p (observed order (file_text file) ignore_case))
         (transitions state res).
Proof.
  intros H.
  destruct (generate_raw_returns _ _ _ _ _ _ _ H)
    as (automaton & state & res & E & Hfirst & W & ->).
  destruct (first_key_observed _ _ _ E Hfirst) as [c0 Hc0].
  exists state, c0, res. split; [exact Hc0|]. split; [reflexivity|].
  split; [eapply walk_length; exact W|].
  eapply Forall_impl; [|eapply walk_successors; exact W].
  intros [k c] (e & Hget & Hc). cbn [fst snd] in *.
  eapply successor_was_observed; eassumption.
Qed.

(** X19. When the case is kept, a call on a text file that returns at all
    returns exactly [length] characters, none for a negative [length],
    whatever the order. *)
Theorem generate_kept_case_length
  (length order : Z) (file : source_file) (seed : option Z)
  (export : bool) (entropy : Z) (s : pystr) :
  returned (generate length order file seed export true true entropy) = Ok s ->
  List.length s = Z.to_nat length.
Proof.
  intros H.
  destruct (generate_raw_values _ _ _ _ _ _ _ H) as (res & -> & Hlen & Hall).
  rewrite <- Hlen. apply concat_singles.
  pose proof (yields_singles (file_text file)) as Hs.
  rewrite Forall_forall in Hs, Hall. apply Forall_forall.
  intros y Hy. apply Hs, Hall, Hy.
Qed.

(** X20. When the case is kept, every character of the returned text stands in
    the training text, except the space, which may stand for a newline; and no
    tab, carriage return, vertical tab or form feed is ever returned. *)
Theorem generate_output_characters
  (length order : Z) (file : source_file) (seed : option Z)
  (export : bool) (entropy : Z) (s : pystr) :
  returned (generate length order file seed export true true entropy) = Ok s ->
  Forall (fun ch => (In ch (file_text file) /\ dropped ch = false)
                    \/ (ch = SPACE /\ In NL (file_text file))) s.
Proof.
  intros H.
  destruct (generate_raw_values _ _ _ _ _ _ _ H) as (res & -> & _ & Hall).
  pose proof (yields_sources (file_text file)) as Hs.
  rewrite Forall_forall in Hs, Hall. apply Forall_forall.
  intros ch Hch. apply in_concat in Hch as (y & Hy & Hch).
  destruct (Hs y (Hall y Hy)) as (ch' & -> & Hsrc).
  destruct Hch as [<-|[]]. exact Hsrc.
Qed.

(** X21. A call on a text file ends with a [TypeError] exactly when nothing
    passes the filter, and with a [StopIteration] exactly when something does
    but fewer values than [order]: the generator is exhausted while the first
    context is read, or the automaton is empty and has no first key. The
    requested length plays no part in either. *)
Theorem generate_short_text
  (length order : Z) (file : source_file) (seed : option Z)
  (export ignore_case : bool) (entropy : Z) :
  (returned (generate length order file seed export true ignore_case entropy)
   = Raise TypeError
   <-> filtered (file_text file) ignore_case = [])
  /\ (returned (generate length order file seed export true ignore_case
                  entropy)
      = Raise StopIteration
      <-> filtered (file_text file) ignore_case <> []
          /\ (List.length (filtered (file_text file) ignore_case)
              < Z.to_nat order)%nat).
Proof.
  pose proof (generate_raw_cases length order file seed export ignore_case
                entropy) as H.
  cbv zeta in H.
  destruct H
    as [[H1 H2]|[(H1 & H2 & H3)|[(H1 & H2 & [s H3])|(H1 & H2 & H3 & H4)]]];
    [rewrite H2 | rewrite H3 | rewrite H3 | rewrite H4];
    (split; split; intros H; try discriminate; try tauto;
     try (destruct H as [Hne Hlt]); try contradiction; try lia;
     try (split; [assumption | lia])).
Qed.

(** X22. A call on a text file can only end with one of three exceptions:
    [TypeError], [StopIteration], or the [KeyError] of a lookup in the loop,
    the last for a positive [length] only. Sampling never fails on a built
    automaton, and no division by zero happens. *)
Theorem generate_raw_exceptions
  (length order : Z) (file : source_file) (seed : option Z)
  (export ignore_case : bool) (entropy : Z) (e : exn) :
  returned (generate length order file seed export true ignore_case entropy)
  = Raise e ->
  e = TypeError \/ e = StopIteration \/ (e = KeyError /\ 0 < length).
Proof.
  pose proof (generate_raw_cases length order file seed export ignore_case
                entropy) as H.
  cbv zeta in H. intros He.
  destruct H as [[_ H]|[(_ & _ & H)|[(_ & _ & [s H])|(_ & _ & Hl & H)]]];
    rewrite H in He; try discriminate; injection He as <-; auto.
Qed.

(** X23. When every context of the training text is always followed by the
    same character, nothing is left to chance: the call returns the same
    string, or ends with the same exception, whatever the seed. *)
Theorem generate_without_choice
  (length order : Z) (file : source_file) (seed seed' : option Z)
  (export export' ignore_case : bool) (entropy entropy' : Z) :
  (forall k c c' : pystr,
     In (k, c) (observed order (file_text file) ignore_case) ->
     In (k, c') (observed order (file_text file) ignore_case) ->
     c = c') ->
  returned (generate length order file seed export true ignore_case entropy)
  = returned (generate length order file seed' export' true ignore_case
                entropy').
Proof.
  intros Hdet. unfold generate.
  destruct (create_automaton order (file_text file) ignore_case)
    as [automaton|x] eqn:E; cbn [returned]; [|reflexivity].
  unfold generate_from.
  destruct (Dict.first_key automaton) as [state|x]; cbn [bind]; [|reflexivity].
  rewrite (@walk_without_choice R automaton (Z.to_nat length)) with
    (g' := random_seed seed' entropy'); [reflexivity|].
  intros k e Hget. pose proof Hget as Hin.
  apply get_In in Hin; [|exact str_eqb_eq].
  destruct (create_automaton_entries _ _ _ _ _ E Hin)
    as (Hne & _ & _ & Hnd & Hone).
  destruct (successors e) as [|c [|c' rest]] eqn:Es; [contradiction| |].
  - exists c. split; [reflexivity|]. apply (Hone c). reflexivity.
  - exfalso.
    assert (Hc : In c (successors e)) by (rewrite Es; left; reflexivity).
    assert (Hc' : In c' (successors e))
      by (rewrite Es; right; left; reflexivity).
    pose proof (successor_was_observed _ _ _ _ _ E Hget Hc) as H1.
    pose proof (successor_was_observed _ _ _ _ _ E Hget Hc') as H2.
    pose proof (Hdet _ _ _ H1 H2) as Heq. subst c'.
    inversion Hnd as [|? ? Hnotin _]; subst. apply Hnotin. left. reflexivity.
Qed.

(** X24. Exporting and importing do not change the text: a call on the
    document that a call on a text file exported returns what that call
    returned, when the generator starts from the same state. The order and the
    case flag of the second call play no part. *)
Theorem generate_from_exported
  (length order order' : Z) (file file' : source_file) (seed : option Z)
  (export' ignore_case ignore_case' : bool) (entropy : Z) (doc : json) :
  written (generate length order file seed true true ignore_case entropy)
  = Some doc ->
  file_json file' = Ok doc ->
  returned (generate length order' file' seed export' false ignore_case'
              entropy)
  = returned (generate length order file seed true true ignore_case entropy).
Proof.
  unfold generate.
  destruct (create_automaton order (file_text file) ignore_case)
    as [automaton|x] eqn:E; cbn [written returned]; [|discriminate].
  intros Hw Hf. injection Hw as <-. rewrite Hf. cbn [bind].
  unfold import_automaton, save_automaton.
  rewrite (load_members_saved automaton [])
    by (apply create_automaton_NoDup in E; exact E).
  cbn [app bind]. apply generate_from_reloaded.
Qed.

End OutputFacts.

(** ** Saving what was loaded *)

Lemma entry_of_json_shape (j : json) (e : entry) :
  entry_of_json j = Ok e -> shape e = List.
Proof.
  destruct j as [| | |items|]; try discriminate.
  destruct items as [|a [|b [|c items]]]; try discriminate;
    destruct a; try discriminate; destruct b; try discriminate.
  cbn [entry_of_json]. intros H.
  apply bind_ok in H as (succs & _ & H).
  apply bind_ok in H as (probs & _ & H). injection H as <-. reflexivity.
Qed.

Lemma load_members_loaded (members : list (pystr * json)) :
  forall res automaton : Automaton,
  NoDup (Dict.keys res) ->
  Forall (fun kv => shape (snd kv) = List) res ->
  load_members res members = Ok automaton ->
  NoDup (Dict.keys automaton)
  /\ Forall (fun kv => shape (snd kv) = List) automaton.
Proof.
  induction members as [|[k v] members IH]; intros res automaton Hnd Hall;
    cbn [load_members].
  - intros H. injection H as <-. auto.
  - intros H. apply bind_ok in H as (e & He & H).
    apply (IH _ _) in H; [exact H | |].
    + unfold Dict.set. apply upsert_NoDup; [exact str_eqb_eq | exact Hnd].
    + apply set_Forall with (P := fun e => shape e = List); [|exact Hall].
      eapply entry_of_json_shape, He.
Qed.

(** X25. What [import_automaton] returns is saved without loss: saving it and
    importing the document written gives the same automaton again, with the
    same keys in the same order. *)
Theorem import_save_imported (doc : json) (automaton : Automaton) :
  import_automaton doc = Ok automaton ->
  import_automaton (save_automaton automaton) = Ok automaton.
Proof.
  intros H. destruct doc as [| | | |members]; try discriminate.
  cbn [import_automaton] in H.
  apply load_members_loaded in H as [Hnd Hall]; [|constructor|constructor].
  unfold import_automaton, save_automaton.
  rewrite (load_members_saved automaton []) by exact Hnd.
  cbn [app]. rewrite (reloaded_lists Hall). reflexivity.
Qed.

(** The theorem at the document saved for the text ["abc"], order 2. *)
Lemma import_save_imported_witness :
  import_automaton (save_automaton automaton_abc_loaded)
  = Ok automaton_abc_loaded.
Proof.
  apply (@import_save_imported (save_automaton automaton_abc)
           automaton_abc_loaded).
  reflexivity.
Defined.

(** ** The further properties at examples *)

(** The contexts of the text ["abc"] with order 2. *)
Lemma automaton_contexts_witness :
  In (str "bc") (Dict.keys automaton_abc)
  <-> exists c : pystr, In (str "bc", c) (observed 2 (str "abc") false).
Proof.
  apply (@automaton_contexts AsciiLowering 2 (str "abc") false automaton_abc
           (str "bc")).
  reflexivity.
Defined.

(** The successors of ["a"] in the text ["aab ac"], order 1. *)
Lemma successors_observed_witness :
  In (str "b") (successors row_a)
  <-> In (str "a", str "b") (observed 1 (str "aab ac") false).
Proof.
  apply (@successors_observed AsciiLowering 1 (str "aab ac") false
           automaton_aab_ac (str "a") row_a (str "b")).
  - vm_compute. reflexivity.
  - reflexivity.
Defined.

(** In ["aab ac"] the character ["b"] was read once after ["a"], which was
    met three times: its probability is the float nearest to one third. *)
Lemma probabilities_are_frequencies_witness :
  third
  = Float.RN
      (inject_Z (occurrences (str "a") (str "b")
                   (observed 1 (str "aab ac") false))
       / inject_Z (visits (str "a") (observed 1 (str "aab ac") false))).
Proof.
  apply (@probabilities_are_frequencies AsciiLowering 1 (str "aab ac") false
           automaton_aab_ac (str "a") row_a (str "b") third).
  - vm_compute. reflexivity.
  - reflexivity.
  - right. left. reflexivity.
Defined.

(** In ["aab ac"] the character ["b"] was followed by the space only. *)
Lemma single_successor_is_certain_witness :
  weights {| shape := Tuple; successors := [str " "]; weights := [1%Q] |}
  = [1%Q].
Proof.
  apply (@single_successor_is_certain AsciiLowering 1 (str "aab ac") false
           automaton_aab_ac (str "b")
           {| shape := Tuple; successors := [str " "]; weights := [1%Q] |}
           (str " ")).
  - vm_compute. reflexivity.
  - reflexivity.
  - reflexivity.
Defined.

Lemma automaton_without_repeats_witness :
  NoDup (Dict.keys automaton_aab_ac)
  /\ Forall (fun kv => NoDup (successors (snd kv))) automaton_aab_ac.
Proof.
  apply (@automaton_without_repeats AsciiLowering 1 (str "aab ac") false
           automaton_aab_ac).
  vm_compute. reflexivity.
Defined.

(** The text ["abc"] with order 2 starts from ["ab"]. *)
Lemma first_context_witness :
  exists automaton : Automaton,
    create_automaton 2 (str "abc") false = Ok automaton
    /\ Dict.first_key automaton
       = Ok (concat (firstn (Z.to_nat 2) (filtered (str "abc") false))).
Proof.
  apply (@first_context AsciiLowering 2 (str "abc") false).
  - vm_compute. discriminate.
  - simpl. lia.
Defined.

Lemma contexts_have_order_characters_witness :
  List.length (str "bc") = Z.to_nat 2.
Proof.
  apply (@contexts_have_order_characters AsciiLowering 2 (str "abc")
           automaton_abc (str "bc")).
  - lia.
  - reflexivity.
  - right. left. reflexivity.
Defined.

(** The table of one state with the counts 1 and 3. *)
Lemma normalize_automaton_rows_witness :
  normalize_automaton [(str "a", [(str "b", 1); (str "c", 3)])]
  = Ok (map (fun kv => (fst kv, normalized (snd kv)))
          [(str "a", [(str "b", 1); (str "c", 3)])]).
Proof.
  apply (@normalize_automaton_rows [(str "a", [(str "b", 1); (str "c", 3)])]).
  - constructor; [simpl; tauto | constructor].
  - constructor; [|constructor]. split; [|reflexivity].
    repeat constructor.
  - constructor; [|constructor]. right. vm_compute. discriminate.
Defined.

(** The table of one state with one count of zero. *)
Lemma normalize_automaton_zero_division_witness :
  normalize_automaton [(str "a", [(str "b", 0)])] = Raise ZeroDivisionError.
Proof.
  apply (@normalize_automaton_zero_division [(str "a", [(str "b", 0)])]).
  - constructor; [|constructor]. split; [|reflexivity].
    repeat constructor.
  - constructor. intros [H|H]; [discriminate | apply H; reflexivity].
Defined.

(** Eight characters from the text ["aab ac"], order 1, seed 0. *)
Lemma generated_pairs_were_observed_witness :
  exists (state c : pystr) (res : list pystr),
    hd_error (observed 1 (file_text (text_file (str "aab ac"))) false)
    = Some (state, c)
    /\ str "aaacab a" = concat res
    /\ List.length res = Z.to_nat 8
    /\ Forall (fun p => In p (observed 1 (file_text (text_file (str "aab ac")))
                                false))
         (transitions state res).
Proof.
  apply (@generated_pairs_were_observed AsciiLowering Lcg 8 1
           (text_file (str "aab ac")) (Some 0) false false 0 (str "aaacab a")).
  vm_compute. reflexivity.
Defined.

Lemma generate_kept_case_length_witness :
  List.length (str "aaacab a") = Z.to_nat 8.
Proof.
  apply (@generate_kept_case_length AsciiLowering Lcg 8 1
           (text_file (str "aab ac")) (Some 0) false 0 (str "aaacab a")).
  vm_compute. reflexivity.
Defined.

Lemma generate_output_characters_witness :
  Forall (fun ch =>
            (In ch (file_text (text_file (str "aab ac")))
             /\ dropped ch = false)
            \/ (ch = SPACE
                /\ In NL (file_text (text_file (str "aab ac")))))
    (str "aaacab a").
Proof.
  apply (@generate_output_characters AsciiLowering Lcg 8 1
           (text_file (str "aab ac")) (Some 0) false 0 (str "aaacab a")).
  vm_compute. reflexivity.
Defined.

(** The text ["abc"] with order 2 and length 3 ends with a [KeyError]. *)
Lemma generate_raw_exceptions_witness :
  KeyError = TypeError \/ KeyError = StopIteration
  \/ (KeyError = KeyError /\ 0 < 3).
Proof.
  apply (@generate_raw_exceptions AsciiLowering Lcg 3 2
           (text_file (str "abc")) (Some 0) false false 0 KeyError).
  reflexivity.
Defined.

(** In the text ["abc"] with order 2 each context has one successor. *)
Lemma generate_without_choice_witness :
  returned (generate 2 2 (text_file (str "abc")) (Some 1) false true false 0)
  = returned (generate 2 2 (text_file (str "abc")) (Some 2) true true false 5).
Proof.
  apply (@generate_without_choice AsciiLowering Lcg 2 2
           (text_file (str "abc")) (Some 1) (Some 2) false true false 0 5).
  intros k c c' H1 H2. vm_compute in H1, H2.
  destruct H1 as [H1|[H1|[]]]; destruct H2 as [H2|[H2|[]]]; congruence.
Defined.

(** The text ["aab ac"] exported with order 1, then imported. *)
Lemma generate_from_exported_witness :
  returned (generate 8 3 (json_file (save_automaton automaton_aab_ac))
              (Some 0) false false true 0)
  = returned (generate 8 1 (text_file (str "aab ac")) (Some 0) true true false
                0).
Proof.
  apply (@generate_from_exported AsciiLowering Lcg 8 1 3
           (text_file (str "aab ac"))
           (json_file (save_automaton automaton_aab_ac))
           (Some 0) false false true 0 (save_automaton automaton_aab_ac)).
  - vm_compute. reflexivity.
  - reflexivity.
Defined.

Lemma generate_order_one_kept_case_witness :
  exists s : pystr,
    returned (generate 8 1 (text_file (str "aab ac")) (Some 0) false true true
                0) = Ok s
    /\ Z.of_nat (List.length s) = 8.
Proof.
  apply (@generate_order_one_kept_case AsciiLowering Lcg 8 (str "aab ac")
           (Some 0) false 0).
  - vm_compute. discriminate.
  - vm_compute. discriminate.
  - lia.
Defined.

(** The windows of two values in the text ["abc"]. *)
Lemma automaton_of_sliding_windows_witness :
  (forall k : pystr,
     In k (Dict.keys automaton_abc)
     <-> exists c : pystr,
           In (k, c) (windows (Z.to_nat 2) (yields (str "abc") true)))
  /\ (forall (k : pystr) (e : entry) (c : pystr),
        Dict.get str_eqb automaton_abc k = Some e ->
        (In c (successors e)
         <-> In (k, c) (windows (Z.to_nat 2) (yields (str "abc") true)))).
Proof.
  apply (@automaton_of_sliding_windows AsciiLowering 2 (str "abc")
           automaton_abc).
  - lia.
  - reflexivity.
Defined.

(** The text ["ab"] with order 0. *)
Lemma create_automaton_nonpositive_order_witness :
  create_automaton 0 (str "ab") true
  = match filtered (str "ab") true with
    | [] => Raise TypeError
    | y :: _ =>
        automaton <- create_automaton 1 (str "ab") true ;;
        Ok (([], {| shape := Tuple; successors := [y]; weights := [1%Q] |})
            :: automaton)
    end.
Proof.
  apply (@create_automaton_nonpositive_order AsciiLowering 0 (str "ab")). lia.
Defined.
